(** * get-open-port: the port selector, its lock table and the range helper

    A shallow embedding of [src/index.ts].  Port numbers are [Z]; the lock
    table [portManager.locked] (a JS [Map<number, number>]) is a
    [gmap Z Z]; error objects are records of a class tag and a finite map
    of own properties, so that [error.code] and [error instanceof C] read
    as in the source.  The operating system, the timers and whatever else
    runs while a call is suspended at an [await] are an explicit
    environment. *)

From stdpp Require Import gmap strings list pretty.

Open Scope Z_scope.

(** ** JavaScript values *)

(** The values that reach the code under study.  A finite number that is
    not an integer never takes part in arithmetic here (it is rejected by
    [Number.isInteger] or only printed), so it is carried by its decimal
    rendering. *)
Inductive JsVal :=
| VUndefined
| VNull
| VBool (b : bool)
| VStr (s : string)
| VNaN
| VInt (z : Z)
| VFrac (shown : string).

#[global] Instance JsVal_eq_dec : EqDecision JsVal.
Proof. solve_decision. Defined.

(** [ToBoolean]: what [x || y] and [if (x)] test. *)
Definition truthy (v : JsVal) : bool :=
  match v with
  | VUndefined | VNull | VNaN => false
  | VBool b => b
  | VStr s => negb (String.eqb s "")
  | VInt z => negb (z =? 0)
  | VFrac _ => true
  end.

(** [x || y] *)
Definition js_or (x y : JsVal) : JsVal := if truthy x then x else y.

(** [Number.isInteger] *)
Definition Number_isInteger (v : JsVal) : bool :=
  match v with VInt _ => true | _ => false end.

(** [`${v}`] *)
Definition template (v : JsVal) : string :=
  match v with
  | VUndefined => "undefined"
  | VNull => "null"
  | VBool true => "true"
  | VBool false => "false"
  | VStr s => s
  | VNaN => "NaN"
  | VInt z => pretty z
  | VFrac shown => shown
  end.

(** ** Error objects *)

Inductive ErrorClass := ClsError | ClsTypeError | ClsRangeError | ClsLockedPortError.

#[global] Instance ErrorClass_eq_dec : EqDecision ErrorClass.
Proof. solve_decision. Defined.

Record JsError := mkError {
  proto : ErrorClass;
  own : gmap string JsVal
}.

#[global] Instance JsError_eq_dec : EqDecision JsError.
Proof. solve_decision. Defined.

(** [e.k] for an own data property; [undefined] when absent. *)
Definition prop (e : JsError) (k : string) : JsVal := default VUndefined (own e !! k).

(** [new Error(msg)], [new TypeError(msg)], [new RangeError(msg)] *)
Definition new_Error (msg : string) : JsError :=
  mkError ClsError {[ "message" := VStr msg ]}.
Definition new_TypeError (msg : string) : JsError :=
  mkError ClsTypeError {[ "message" := VStr msg ]}.
Definition new_RangeError (msg : string) : JsError :=
  mkError ClsRangeError {[ "message" := VStr msg ]}.

(** [class LockedPortError extends Error]: the constructor passes the
    message to [super] and then assigns [name] and [code]. *)
Definition LockedPortError (port : JsVal) : JsError :=
  mkError ClsLockedPortError
    (<[ "code" := VStr "EPORTLOCKED" ]>
      (<[ "name" := VStr "LockedPortError" ]>
        {[ "message" := VStr ("Port " +:+ template port +:+ " is locked") ]})).

(** [error instanceof LockedPortError] *)
Definition instanceof_LockedPortError (e : JsError) : bool :=
  bool_decide (proto e = ClsLockedPortError).

(** [error.code === c] *)
Definition code_is (e : JsError) (c : string) : bool :=
  bool_decide (prop e "code" = VStr c).

(** A system error as [net] reports it through the ['error'] event. *)
Definition system_error (code : string) : JsError :=
  mkError ClsError (<[ "code" := VStr code ]> {[ "message" := VStr code ]}).

(** Synchronous completion of a call. *)
Inductive Completion (A : Type) :=
| Normal (v : A)
| Throw (e : JsError).
Arguments Normal {A} v.
Arguments Throw {A} e.

(** ** The port manager *)

(** The handle [setInterval] returns. *)
Record Timeout := mkTimeout {
  period : Z;
  hasRef : bool
}.

(** The delay Node gives a timer asked for [ms] milliseconds: a delay
    below 1 or above 2^31 - 1 is replaced by 1. *)
Definition Node_timer_delay (ms : Z) : Z :=
  if (1 <=? ms) && (ms <=? 2147483647) then ms else 1.

Record PortManager := mkPortManager {
  locked : gmap Z Z;
  cleanupInterval : Z;
  minPort : Z;
  maxPort : Z;
  cleanupTimer : option Timeout
}.

Definition portManager : PortManager :=
  mkPortManager ∅ 15000 1024 65535 None.

Definition set_locked (m : gmap Z Z) (pm : PortManager) : PortManager :=
  mkPortManager m (cleanupInterval pm) (minPort pm) (maxPort pm) (cleanupTimer pm).

Definition set_cleanupTimer (t : option Timeout) (pm : PortManager) : PortManager :=
  mkPortManager (locked pm) (cleanupInterval pm) (minPort pm) (maxPort pm) t.

(** [portManager.locked.has(port)] *)
Definition locked_has (pm : PortManager) (port : Z) : bool :=
  bool_decide (is_Some (locked pm !! port)).

(** [cleanupExpiredPorts], with [now] the value of [Date.now()]. *)
Definition cleanupExpiredPorts (now : Z) (pm : PortManager) : PortManager :=
  set_locked
    (filter (λ kv, ¬ (cleanupInterval pm ≤ now - kv.2)) (locked pm)) pm.

(** ** getPortRange *)

(** [Array.from({ length: n }, (_, i) => from + i)] *)
Definition Array_from_length (n : Z) (f : Z → Z) : list Z :=
  (λ i : nat, f (Z.of_nat i)) <$> seq 0 (Z.to_nat n).

(** The integer that a value passing [Number.isInteger] stands for. *)
Definition integer_of (v : JsVal) : Z :=
  match v with VInt z => z | _ => 0 end.

Definition getPortRange (pm : PortManager) (from to : JsVal) : Completion (list Z) :=
  if negb (Number_isInteger from) || negb (Number_isInteger to) then
    Throw (new_TypeError "`from` and `to` must be integer numbers")
  else
    let a := integer_of from in
    let b := integer_of to in
    if (a <? minPort pm) || (maxPort pm <? a) then
      Throw (new_RangeError
        ("`from` must be between " +:+ pretty (minPort pm) +:+ " and "
           +:+ pretty (maxPort pm)))
    else if (b <? minPort pm) || (maxPort pm <? b) then
      Throw (new_RangeError
        ("`to` must be between " +:+ pretty (minPort pm) +:+ " and "
           +:+ pretty (maxPort pm)))
    else if b <? a then
      Throw (new_RangeError "`to` must be greater than or equal to `from`")
    else Normal (Array_from_length (b - a + 1) (λ i, a + i)).

(** ** Sets in insertion order *)

(** A JS [Set] iterates in insertion order and ignores a value it already
    holds: a duplicate-free list, grown at the end. *)
Definition Set_add {A} `{EqDecision A} (x : A) (s : list A) : list A :=
  if decide (x ∈ s) then s else s ++ [x].

Definition new_Set {A} `{EqDecision A} (xs : list A) : list A :=
  foldl (λ s x, Set_add x s) [] xs.

Definition Set_has {A} `{EqDecision A} (s : list A) (x : A) : bool :=
  bool_decide (x ∈ s).

(** ** Hosts *)

(** A host is [undefined] or an address. *)
Definition Host := option string.

Record InterfaceInfo := mkInterfaceInfo {
  address : string;
  internal : bool
}.

(** [createHosts], over the values of [os.networkInterfaces()]. *)
Definition createHosts (interfaces : list (option (list InterfaceInfo))) : list Host :=
  foldl
    (λ acc iface,
       match iface with
       | Some configs =>
           foldl (λ acc config,
                    if internal config then acc
                    else Set_add (Some (address config)) acc)
                 acc configs
       | None => acc
       end)
    (new_Set [None; Some "0.0.0.0"]) interfaces.

(** ** Probing one address *)

(** [server.address()] *)
Inductive Address :=
| AddrNull
| AddrPipe (path : string)
| AddrInfo (port : Z).

(** What the server does before the probe's timer fires. *)
Inductive ServerBehaviour :=
| Listening (a : Address)
| ErrorEvent (err : JsError)
| Silent.

Inductive Promise (A : Type) :=
| Resolved (v : A)
| Rejected (e : JsError)
| Pending.
Arguments Resolved {A} v.
Arguments Rejected {A} e.
Arguments Pending {A}.

Record ListenOptions := mkListen {
  l_port : Z;
  l_host : Host;
  l_timeout : JsVal
}.

(** [options.timeout || 1000] *)
Definition timeoutMs (options : ListenOptions) : JsVal :=
  js_or (l_timeout options) (VInt 1000).

(** [checkPortAvailability]: the timer is armed with [timeoutMs]; the
    promise settles on whichever of timer, ['error'] and the listen
    callback comes first, and not at all when the callback finds an
    address that is not an object. *)
Definition checkPortAvailability (options : ListenOptions) (srv : ServerBehaviour)
  : Promise Z :=
  match srv with
  | Silent =>
      Rejected (new_Error
        ("Port check timed out after " +:+ template (timeoutMs options) +:+ "ms"))
  | ErrorEvent err => Rejected err
  | Listening (AddrInfo port) => Resolved port
  | Listening _ => Pending
  end.

(** [setTimeout(callback, ms)]: the delay, in milliseconds, after which
    Node runs the callback.  [ms] is coerced to a number, and anything
    that is not a number from 1 to 2^31 - 1 gives 1.  [None] for a
    fraction and for a string, whose numeric value is not carried
    here. *)
Definition setTimeout_delay (ms : JsVal) : option Z :=
  match ms with
  | VInt z => Some (Node_timer_delay z)
  | VUndefined | VNull | VNaN | VBool _ => Some 1
  | VStr _ | VFrac _ => None
  end.

(** A server in time: its first event, and the delay in milliseconds
    from [listen] after which it comes. *)
Record TimedServer := mkTimed {
  answer : ServerBehaviour;
  after : Z
}.

(** What such a server does before a timer of [delay] milliseconds
    fires: its event when that comes first, nothing otherwise. *)
Definition before_timer (delay : Z) (srv : TimedServer) : ServerBehaviour :=
  if after srv <? delay then answer srv else Silent.

(** [checkPortAvailability] against a server in time: the timer is
    armed by [setTimeout(..., timeoutMs)] and races the server. *)
Definition checkPortAvailability_timed (options : ListenOptions) (srv : TimedServer)
  : option (Promise Z) :=
  match setTimeout_delay (timeoutMs options) with
  | Some delay => Some (checkPortAvailability options (before_timer delay srv))
  | None => None
  end.

(** ** Verifying a port across hosts *)

(** One suspension of the caller: what the servers do, the instant at
    which the probe on each host settles, what else runs meanwhile, and
    the clock when the caller resumes. *)
Inductive Act :=
| TimerFires (now : Z)
| Locks (port timestamp : Z)
| Clears.

Record Round := mkRound {
  server : Host → Z → ServerBehaviour;
  settledAt : Host → Z;
  during : list Act;
  resumedAt : Z
}.

(** [options.host] as a condition *)
Definition host_given (h : Host) : bool :=
  match h with
  | Some s => negb (String.eqb s "")
  | None => false
  end.

Definition with_host (h : Host) (options : ListenOptions) : ListenOptions :=
  mkListen (l_port options) h (l_timeout options).

(** The [try]/[catch] around one probe of the fan-out. *)
Definition probe_host (options : ListenOptions) (rd : Round) (h : Host)
  : Promise (option Z) :=
  match checkPortAvailability (with_host h options) (server rd h (l_port options)) with
  | Resolved port => Resolved (Some port)
  | Rejected error =>
      if negb (code_is error "EADDRNOTAVAIL" || code_is error "EINVAL")
      then Rejected error
      else Resolved None
  | Pending => Pending
  end.

(** [Promise.all]: rejects with the reason of the first promise to
    reject, in time; otherwise waits for all and keeps the order of its
    input. *)
Fixpoint first_rejection {A} (ps : list (Z * Promise A)) : option (Z * JsError) :=
  match ps with
  | [] => None
  | (t, Rejected e) :: ps' =>
      match first_rejection ps' with
      | Some (t', e') => if t' <? t then Some (t', e') else Some (t, e)
      | None => Some (t, e)
      end
  | _ :: ps' => first_rejection ps'
  end.

Fixpoint all_values {A} (ps : list (Z * Promise A)) : option (list A) :=
  match ps with
  | [] => Some []
  | (_, Resolved v) :: ps' => cons v <$> all_values ps'
  | _ :: _ => None
  end.

Definition Promise_all {A} (ps : list (Z * Promise A)) : Promise (list A) :=
  match first_rejection ps with
  | Some (_, e) => Rejected e
  | None =>
      match all_values ps with
      | Some vs => Resolved vs
      | None => Pending
      end
  end.

(** [results.find(port => typeof port === "number" && !isNaN(port))] *)
Fixpoint find_number (results : list (option Z)) : option Z :=
  match results with
  | [] => None
  | Some port :: _ => Some port
  | None :: results' => find_number results'
  end.

(** [[...hosts].join(", ")]: [undefined] joins as the empty string. *)
Fixpoint join_hosts (hosts : list Host) : string :=
  match hosts with
  | [] => ""
  | [h] => default "" h
  | h :: hosts' => default "" h +:+ ", " +:+ join_hosts hosts'
  end.

Definition not_available (port : Z) (hosts : list Host) : JsError :=
  new_Error ("Port " +:+ pretty port
             +:+ " is not available on any of the network interfaces: "
             +:+ join_hosts hosts).

(** [verifyPort]: the probes it issues and the promise it returns. *)
Definition verifyPort (options : ListenOptions) (hosts : list Host) (rd : Round)
  : list ListenOptions * Promise Z :=
  if host_given (l_host options) || (l_port options =? 0) then
    ([options],
     checkPortAvailability options (server rd (l_host options) (l_port options)))
  else
    (map (λ h, with_host h options) hosts,
     match Promise_all (map (λ h, (settledAt rd h, probe_host options rd h)) hosts) with
     | Resolved results =>
         match find_number results with
         | Some validPort =>
             if validPort =? 0 then Rejected (not_available (l_port options) hosts)
             else Resolved validPort
         | None => Rejected (not_available (l_port options) hosts)
         end
     | Rejected e => Rejected e
     | Pending => Pending
     end).

(** ** The world a call runs in *)

(** What the journal keeps of a run, most recent first. *)
Inductive Event :=
| Entered
| Probed (options : ListenOptions) (ms : JsVal)
| Reserved (port timestamp : Z)
| Cleared.

Record World := mkWorld {
  manager : PortManager;
  clock : Z;
  tick : nat;
  journal : list Event
}.

Definition initial : World := mkWorld portManager 0 0 [].

Definition set_manager (pm : PortManager) (w : World) : World :=
  mkWorld pm (clock w) (tick w) (journal w).

Definition record (e : Event) (w : World) : World :=
  mkWorld (manager w) (clock w) (tick w) (e :: journal w).

(** [clearLockedPorts] *)
Definition clearLockedPorts (w : World) : World :=
  record Cleared
    (set_manager
       (match cleanupTimer (manager w) with
        | Some _ => set_cleanupTimer None (set_locked ∅ (manager w))
        | None => set_locked ∅ (manager w)
        end) w).

(** The interval timer runs [cleanupExpiredPorts] as long as it is armed. *)
Definition timerFires (now : Z) (w : World) : World :=
  match cleanupTimer (manager w) with
  | Some _ => set_manager (cleanupExpiredPorts now (manager w)) w
  | None => w
  end.

(** [portManager.locked.set(port, timestamp)] *)
Definition lock (port timestamp : Z) (w : World) : World :=
  set_manager (set_locked (<[ port := timestamp ]> (locked (manager w))) (manager w)) w.

Definition perform (w : World) (a : Act) : World :=
  match a with
  | TimerFires now => timerFires now w
  | Locks port timestamp => lock port timestamp w
  | Clears => clearLockedPorts w
  end.

(** The outcome of an asynchronous call: it returns, throws, waits on a
    promise that never settles, or outruns the iteration budget of the
    model. *)
Inductive Exec (A : Type) :=
| Returns (w : World) (v : A)
| Throws (w : World) (e : JsError)
| Hangs (w : World)
| OutOfFuel.
Arguments Returns {A} w v.
Arguments Throws {A} w e.
Arguments Hangs {A} w.
Arguments OutOfFuel {A}.

(** ** getOpenPort *)

Inductive PortOption :=
| PortAbsent
| PortOne (port : Z)
| PortMany (ports : list Z).

Record Options := mkOptions {
  port : PortOption;
  exclude : option (list Z);
  timeout : JsVal;
  host : Host
}.

(** [{ ...options, port }] *)
Definition listen_options (options : Options) (port : Z) : ListenOptions :=
  mkListen port (host options) (timeout options).

(** [createPorts] *)
Definition createPorts (ports : option (list Z)) : list Z :=
  match ports with
  | None => [0]
  | Some ports => new_Set ports
  end.

(** [await verifyPort(options, hosts)]: the probes start, the caller is
    suspended for one round of the environment, and resumes with the
    promise's outcome. *)
Definition await_verifyPort (env : nat → Round) (options : ListenOptions)
    (hosts : list Host) (w : World) : World * Promise Z :=
  let rd := env (tick w) in
  let '(probes, outcome) := verifyPort options hosts rd in
  let started :=
    mkWorld (manager w) (clock w) (S (tick w))
            (rev (map (λ o, Probed o (timeoutMs o)) probes) ++ journal w) in
  let resumed := foldl perform started (during rd) in
  (mkWorld (manager resumed) (resumedAt rd) (tick resumed) (journal resumed),
   outcome).

(** The arming of the sweep at the head of [getOpenPort]. *)
Definition arm (w : World) : World :=
  match cleanupTimer (manager w) with
  | Some _ => w
  | None =>
      set_manager
        (set_cleanupTimer
           (Some (mkTimeout (Node_timer_delay (cleanupInterval (manager w))) false))
                          (manager w)) w
  end.

(** [portManager.locked.set(availablePort, Date.now())] *)
Definition reserve (availablePort : Z) (w : World) : World :=
  record (Reserved availablePort (clock w)) (lock availablePort (clock w) w).

(** The [while (portManager.locked.has(availablePort))] loop. *)
Fixpoint relock (fuel : nat) (env : nat → Round) (options : Options)
    (hosts : list Host) (port : Z) (w : World) (availablePort : Z) : Exec Z :=
  if locked_has (manager w) availablePort then
    if negb (port =? 0) then Throws w (LockedPortError (VInt port))
    else
      match fuel with
      | O => OutOfFuel
      | S fuel' =>
          match await_verifyPort env (listen_options options 0) hosts w with
          | (w', Resolved fresh) => relock fuel' env options hosts port w' fresh
          | (w', Rejected e) => Throws w' e
          | (w', Pending) => Hangs w'
          end
      end
  else Returns w availablePort.

(** The body of the [try] for one candidate; [None] stands for
    [continue]. *)
Definition try_candidate (fuel : nat) (env : nat → Round) (options : Options)
    (excluded : list Z) (hosts : list Host) (port : Z) (w : World)
  : Exec (option Z) :=
  if Set_has excluded port || locked_has (manager w) port then
    if locked_has (manager w) port && negb (port =? 0)
    then Throws w (LockedPortError (VInt port))
    else Returns w None
  else
    match await_verifyPort env (listen_options options port) hosts w with
    | (w', Resolved availablePort) =>
        match relock fuel env options hosts port w' availablePort with
        | Returns w'' availablePort' =>
            Returns (reserve availablePort' w'') (Some availablePort')
        | Throws w'' e => Throws w'' e
        | Hangs w'' => Hangs w''
        | OutOfFuel => OutOfFuel
        end
    | (w', Rejected e) => Throws w' e
    | (w', Pending) => Hangs w'
    end.

(** The [for] loop with its [catch]; [None] when it runs to the end. *)
Fixpoint scan (fuel : nat) (env : nat → Round) (options : Options)
    (excluded : list Z) (hosts : list Host) (ports : list Z) (w : World)
  : Exec (option Z) :=
  match ports with
  | [] => Returns w None
  | port :: rest =>
      match try_candidate fuel env options excluded hosts port w with
      | Returns w' (Some availablePort) => Returns w' (Some availablePort)
      | Returns w' None => scan fuel env options excluded hosts rest w'
      | Throws w' error =>
          if code_is error "EADDRINUSE" then Throws w' error
          else if negb (code_is error "EACCES")
                  && negb (instanceof_LockedPortError error)
          then Throws w' error
          else scan fuel env options excluded hosts rest w'
      | Hangs w' => Hangs w'
      | OutOfFuel => OutOfFuel
      end
  end.

Definition getOpenPort (fuel : nat) (env : nat → Round) (options : Options)
    (interfaces : list (option (list InterfaceInfo))) (w : World) : Exec Z :=
  let excluded := new_Set (default [] (exclude options)) in
  let w := arm (record Entered w) in
  let hosts := createHosts interfaces in
  let portsToCheck :=
    createPorts
      match port options with
      | PortMany ports => Some (new_Set ports)
      | PortOne port => Some [port]
      | PortAbsent => None
      end in
  match scan fuel env options excluded hosts portsToCheck w with
  | Returns w' (Some availablePort) => Returns w' availablePort
  | Returns w' None =>
      if existsb (locked_has (manager w')) portsToCheck then
        Throws w' (LockedPortError
                     (from_option VInt VUndefined
                        (find (locked_has (manager w')) portsToCheck)))
      else Throws w' (new_Error "No available ports found")
  | Throws w' e => Throws w' e
  | Hangs w' => Hangs w'
  | OutOfFuel => OutOfFuel
  end.

(** ** Reading a run *)

(** The world an execution ends in. *)
Definition final {A} (r : Exec A) : option World :=
  match r with
  | Returns w _ | Throws w _ | Hangs w => Some w
  | OutOfFuel => None
  end.

(** Has [getOpenPort] been entered since the start or the last clear? *)
Fixpoint entered_since_clear (j : list Event) : bool :=
  match j with
  | [] => false
  | Entered :: _ => true
  | Cleared :: _ => false
  | _ :: j' => entered_since_clear j'
  end.

(** Has a port been reserved since the start or the last clear? *)
Fixpoint reserved_since_clear (j : list Event) : bool :=
  match j with
  | [] => false
  | Reserved _ _ :: _ => true
  | Cleared :: _ => false
  | _ :: j' => reserved_since_clear j'
  end.

(** The timer is armed exactly when [getOpenPort] has been entered since
    the start or the last clear. *)
Definition armed_iff_entered (w : World) : Prop :=
  is_Some (cleanupTimer (manager w)) ↔ entered_since_clear (journal w) = true.

(** The probes of a journal. *)
Definition probes (j : list Event) : list ListenOptions :=
  omap (λ e, match e with Probed o _ => Some o | _ => None end) j.

(** The ports reserved in a journal, most recent first. *)
Definition reservations (j : list Event) : list Z :=
  omap (λ e, match e with Reserved port _ => Some port | _ => None end) j.

(** What an attempt leaves behind: a world in which [P] holds, and on
    success the reservation of a port that was not locked, made in such
    a world. *)
Definition leaves (P : World → Prop) (r : Exec (option Z)) : Prop :=
  match r with
  | Returns w' (Some p) =>
      ∃ w'', w' = reserve p w'' ∧ P w'' ∧ locked_has (manager w'') p = false
  | Returns w' None | Throws w' _ | Hangs w' => P w'
  | OutOfFuel => True
  end.

(** The states of the port manager a program can reach through the
    exported operations, the sweep timer and direct writes to the
    exported lock table. *)
Inductive reachable (env : nat → Round) : World → Prop :=
| reach_initial : reachable env initial
| reach_call fuel options interfaces w w' :
    reachable env w →
    final (getOpenPort fuel env options interfaces w) = Some w' →
    reachable env w'
| reach_act a w :
    reachable env w → reachable env (perform w a).

(** [k] fresh ephemeral requests in a row, each of which resolved: the
    world and the port after the last one. *)
Fixpoint chase (k : nat) (env : nat → Round) (options : Options)
    (hosts : list Host) (w : World) (availablePort : Z) : option (World * Z) :=
  match k with
  | O => Some (w, availablePort)
  | S k' =>
      match await_verifyPort env (listen_options options 0) hosts w with
      | (w', Resolved fresh) => chase k' env options hosts w' fresh
      | _ => None
      end
  end.

(** A call ends within some iteration budget. *)
Definition terminates (env : nat → Round) (options : Options)
    (interfaces : list (option (list InterfaceInfo))) (w : World) : Prop :=
  ∃ fuel, getOpenPort fuel env options interfaces w ≠ OutOfFuel.

(** ** The specification's reading of the fan-out *)

(** In the specification's words: among the settled results, the
    successful one that completed first. *)
Fixpoint earliest_success (settled : list (Z * Promise (option Z))) : option (Z * Z) :=
  match settled with
  | [] => None
  | (t, Resolved (Some port)) :: settled' =>
      match earliest_success settled' with
      | Some (t', port') => if t' <? t then Some (t', port') else Some (t, port)
      | None => Some (t, port)
      end
  | _ :: settled' => earliest_success settled'
  end.

Definition first_success_by_completion (options : ListenOptions)
    (hosts : list Host) (rd : Round) : option Z :=
  snd <$> earliest_success (map (λ h, (settledAt rd h, probe_host options rd h)) hosts).

(** ** Scenarios *)

(** The interfaces of the test suite. *)
Definition eth0 : list (option (list InterfaceInfo)) :=
  [Some [mkInterfaceInfo "192.168.1.1" false]].

(** A system on which every bind succeeds; an ephemeral request gets
    [ephemeral]. *)
Definition binds (ephemeral : Z) : Host → Z → ServerBehaviour :=
  λ _ port, Listening (AddrInfo (if port =? 0 then ephemeral else port)).

(** Nothing else runs while the caller waits. *)
Definition calm (ephemeral : Z) : nat → Round :=
  λ i, mkRound (binds ephemeral) (λ _, 0) [] (1000 + Z.of_nat i).

(** Every ephemeral request gets the same port, whose holder renews the
    lock each time, after the sweep has run. *)
Definition stubborn (ephemeral : Z) : nat → Round :=
  λ i, mkRound (binds ephemeral) (λ _, 0)
               [TimerFires (Z.of_nat i); Locks ephemeral (Z.of_nat i)]
               (Z.of_nat i).

(** The port is free on the unspecified host and taken on the others. *)
Definition taken_elsewhere : Round :=
  mkRound
    (λ h port, match h with
               | None => Listening (AddrInfo port)
               | Some _ => ErrorEvent (system_error "EADDRINUSE")
               end)
    (λ h, match h with None => 1 | Some _ => 5 end)
    [] 10.

(** Preferences 3000 then 3001 on a system where 3000 is in use. *)
Definition in_use_3000 : nat → Round :=
  λ i, mkRound
         (λ _ port, if port =? 3000 then ErrorEvent (system_error "EADDRINUSE")
                    else Listening (AddrInfo port))
         (λ _, 0) [] (Z.of_nat i).

(** The first ephemeral request gets 40001, the next 40002, and so on. *)
Definition rotating : nat → Round :=
  λ i, mkRound (binds (40001 + Z.of_nat i)) (λ _, 0) [] (Z.of_nat i).

(** Port 80 may not be bound; every other port is free. *)
Definition denied_80 : nat → Round :=
  λ i, mkRound
         (λ _ port, if port =? 80 then ErrorEvent (system_error "EACCES")
                    else Listening (AddrInfo port))
         (λ _, 0) [] (Z.of_nat i).

(** No server ever answers. *)
Definition unresponsive : nat → Round :=
  λ i, mkRound (λ _ _, Silent) (λ _, 0) [] (Z.of_nat i).

(** No interface has an address on which [bad] can be bound; every other
    port is free. *)
Definition unbindable (bad : Z) : nat → Round :=
  λ i, mkRound
         (λ _ port, if port =? bad then ErrorEvent (system_error "EADDRNOTAVAIL")
                    else Listening (AddrInfo (if port =? 0 then 40000 else port)))
         (λ _, 0) [] (Z.of_nat i).

(** Port 3000 is free, and other code locks it while the probe is in
    flight. *)
Definition raced_3000 : nat → Round :=
  λ i, mkRound (binds 40000) (λ _, 0) [Locks 3000 (Z.of_nat i)] (Z.of_nat i).

Definition no_options : Options := mkOptions PortAbsent None VUndefined None.

(** * Properties *)

(** ** The range helper *)

Example getPortRange_1024_1029 :
  getPortRange portManager (VInt 1024) (VInt 1029)
  = Normal [1024; 1025; 1026; 1027; 1028; 1029].
Proof. reflexivity. Qed.

Example getPortRange_reversed :
  getPortRange portManager (VInt 1029) (VInt 1024)
  = Throw (new_RangeError "`to` must be greater than or equal to `from`").
Proof. reflexivity. Qed.

Example getPortRange_70000 :
  getPortRange portManager (VInt 70000) (VInt 80000)
  = Throw (new_RangeError "`from` must be between 1024 and 65535").
Proof. vm_compute. reflexivity. Qed.

Example getPortRange_fraction :
  getPortRange portManager (VFrac "1024.5") (VInt 1025)
  = Throw (new_TypeError "`from` and `to` must be integer numbers").
Proof. reflexivity. Qed.

Example getPortRange_string :
  getPortRange portManager (VStr "a") (VInt 80000)
  = Throw (new_TypeError "`from` and `to` must be integer numbers").
Proof. reflexivity. Qed.

Lemma Array_from_length_length n f :
  0 ≤ n → Z.of_nat (length (Array_from_length n f)) = n.
Proof.
  intros Hn. unfold Array_from_length.
  rewrite length_fmap, length_seq. lia.
Qed.

Lemma Array_from_length_lookup n f (i : nat) :
  Z.of_nat i < n → Array_from_length n f !! i = Some (f (Z.of_nat i)).
Proof.
  intros Hi. unfold Array_from_length.
  rewrite list_lookup_fmap, lookup_seq_lt by lia. reflexivity.
Qed.

Lemma Array_from_length_seqZ n a :
  Array_from_length n (λ i, a + i) = seqZ a n.
Proof.
  unfold Array_from_length, seqZ.
  apply list_fmap_ext. intros _ i _. lia.
Qed.

(** C8.  For integers [from] and [to] with
    [minPort <= from <= to <= maxPort], [getPortRange] returns the list
    [from, from + 1, ..., to], of exactly [to - from + 1] consecutive
    integers starting at [from]; an argument that is not an integer raises
    a [TypeError]; integer arguments out of bounds or with [from > to]
    raise a [RangeError]. *)
Theorem getPortRange_correct (pm : PortManager) (from to : JsVal) :
  (∀ a b, from = VInt a → to = VInt b →
          minPort pm ≤ a → a ≤ b → b ≤ maxPort pm →
          ∃ l, getPortRange pm from to = Normal l
               ∧ l = seqZ a (b - a + 1)
               ∧ Z.of_nat (length l) = b - a + 1
               ∧ ∀ i : nat, Z.of_nat i < b - a + 1 → l !! i = Some (a + Z.of_nat i))
  ∧ (Number_isInteger from = false ∨ Number_isInteger to = false →
     ∃ e, getPortRange pm from to = Throw e ∧ proto e = ClsTypeError)
  ∧ (∀ a b, from = VInt a → to = VInt b →
            a < minPort pm ∨ maxPort pm < a ∨ b < minPort pm ∨ maxPort pm < b ∨ b < a →
            ∃ e, getPortRange pm from to = Throw e ∧ proto e = ClsRangeError).
Proof.
  split; [|split].
  - intros a b -> -> Hlo Hab Hhi. unfold getPortRange.
    cbn [Number_isInteger integer_of negb orb].
    assert ((a <? minPort pm) = false) as -> by lia.
    assert ((maxPort pm <? a) = false) as -> by lia.
    assert ((b <? minPort pm) = false) as -> by lia.
    assert ((maxPort pm <? b) = false) as -> by lia.
    assert ((b <? a) = false) as -> by lia.
    cbn [orb]. eexists. split; [reflexivity|].
    split; [apply Array_from_length_seqZ|].
    split; [apply Array_from_length_length; lia|].
    intros i Hi. apply (Array_from_length_lookup _ (λ i, a + i)). exact Hi.
  - intros Hnot. exists (new_TypeError "`from` and `to` must be integer numbers").
    split; [|reflexivity]. unfold getPortRange.
    destruct Hnot as [-> | ->]; [|rewrite orb_true_r]; reflexivity.
  - intros a b -> -> Hbad. unfold getPortRange.
    cbn [Number_isInteger integer_of negb orb].
    destruct ((a <? minPort pm) || (maxPort pm <? a)) eqn:Ha;
      [eexists; split; reflexivity|].
    destruct ((b <? minPort pm) || (maxPort pm <? b)) eqn:Hb;
      [eexists; split; reflexivity|].
    destruct (b <? a) eqn:Hba; [eexists; split; reflexivity|].
    exfalso. apply orb_false_elim in Ha as [? ?], Hb as [? ?]. lia.
Qed.

Lemma getPortRange_correct_witness :
  ∃ l, getPortRange portManager (VInt 3000) (VInt 3010) = Normal l
       ∧ l = seqZ 3000 (3010 - 3000 + 1)
       ∧ Z.of_nat (length l) = 3010 - 3000 + 1
       ∧ ∀ i : nat, Z.of_nat i < 3010 - 3000 + 1 → l !! i = Some (3000 + Z.of_nat i).
Proof.
  apply (proj1 (getPortRange_correct portManager (VInt 3000) (VInt 3010)) 3000 3010);
    [reflexivity | reflexivity | simpl; lia | lia | simpl; lia].
Defined.

(** ** Error objects *)

Lemma LockedPortError_code (v : JsVal) :
  prop (LockedPortError v) "code" = VStr "EPORTLOCKED".
Proof. reflexivity. Qed.

Lemma LockedPortError_instanceof (v : JsVal) :
  instanceof_LockedPortError (LockedPortError v) = true.
Proof. reflexivity. Qed.

Lemma LockedPortError_not_in_use (v : JsVal) :
  code_is (LockedPortError v) "EADDRINUSE" = false.
Proof. reflexivity. Qed.

Lemma code_is_functional (e : JsError) (c c' : string) :
  code_is e c = true → c ≠ c' → code_is e c' = false.
Proof.
  unfold code_is. intros H Hne.
  apply bool_decide_eq_true in H. apply bool_decide_eq_false.
  rewrite H. congruence.
Qed.

(** C2.  The error object that [getOpenPort] rejects with for the locked
    port 8080 has exactly the own properties [message], [name] and [code],
    all of them strings: [error.port], which the README reads, is
    [undefined], and the port occurs in the message text only. *)
Theorem LockedPortError_lacks_port :
  getOpenPort 0 (calm 40000) (mkOptions (PortOne 8080) None VUndefined None)
              eth0 (lock 8080 0 initial)
  = Throws (arm (record Entered (lock 8080 0 initial))) (LockedPortError (VInt 8080))
  ∧ prop (LockedPortError (VInt 8080)) "port" = VUndefined
  ∧ own (LockedPortError (VInt 8080))
    = list_to_map [("message", VStr "Port 8080 is locked");
                   ("name", VStr "LockedPortError");
                   ("code", VStr "EPORTLOCKED")].
Proof.
  split; [vm_compute; reflexivity|].
  split; [reflexivity|].
  vm_compute. reflexivity.
Qed.

(** No [LockedPortError], whatever it is built from, has a [port]
    property. *)
Lemma LockedPortError_port_undefined (v : JsVal) :
  prop (LockedPortError v) "port" = VUndefined.
Proof. reflexivity. Qed.

(** ** The probe's timeout *)

Example timeout_message_default :
  checkPortAvailability (mkListen 0 None (VInt 0)) Silent
  = Rejected (new_Error "Port check timed out after 1000ms").
Proof. vm_compute. reflexivity. Qed.

Example timeout_message_100 :
  checkPortAvailability (mkListen 0 None (VInt 100)) Silent
  = Rejected (new_Error "Port check timed out after 100ms").
Proof. vm_compute. reflexivity. Qed.

Example setTimeout_zero_fires_at_once :
  setTimeout_delay (VInt 0) = Some 1
  ∧ checkPortAvailability_timed (mkListen 0 None (VInt 1)) (mkTimed (Listening (AddrInfo 40000)) 5)
    = Some (Rejected (new_Error "Port check timed out after 1ms")).
Proof. split; vm_compute; reflexivity. Qed.

Example checkPortAvailability_timed_100 :
  checkPortAvailability_timed (mkListen 0 None (VInt 100)) (mkTimed (Listening (AddrInfo 40000)) 99)
  = Some (Resolved 40000)
  ∧ checkPortAvailability_timed (mkListen 0 None (VInt 100)) (mkTimed (Listening (AddrInfo 40000)) 100)
    = Some (Rejected (new_Error "Port check timed out after 100ms")).
Proof. split; vm_compute; reflexivity. Qed.

(** C10.  A [timeout] option that is 0, or falsy in any other way, is
    treated as unspecified: the probe arms its timer with the default
    1000, so the timer fires after 1000 ms and not at once.  A server
    that starts listening, or fails, less than 1000 ms after [listen]
    settles the probe with its port, or its error; one that has done
    neither by then makes the probe reject with the 1000 ms timeout
    error.  In every respect the probe behaves as with [timeout: 1000]
    and as with no [timeout] option. *)
Theorem falsy_timeout_is_default (options : ListenOptions) :
  truthy (l_timeout options) = false →
  timeoutMs options = VInt 1000
  ∧ setTimeout_delay (timeoutMs options) = Some 1000
  ∧ (∀ port d, d < 1000 →
       checkPortAvailability_timed options (mkTimed (Listening (AddrInfo port)) d)
       = Some (Resolved port))
  ∧ (∀ err d, d < 1000 →
       checkPortAvailability_timed options (mkTimed (ErrorEvent err) d)
       = Some (Rejected err))
  ∧ (∀ srv, 1000 ≤ after srv ∨ answer srv = Silent →
       checkPortAvailability_timed options srv
       = Some (Rejected (new_Error "Port check timed out after 1000ms")))
  ∧ (∀ srv, checkPortAvailability_timed options srv
            = checkPortAvailability_timed
                (mkListen (l_port options) (l_host options) (VInt 1000)) srv)
  ∧ (∀ srv, checkPortAvailability options srv
            = checkPortAvailability
                (mkListen (l_port options) (l_host options) (VInt 1000)) srv)
  ∧ (∀ srv, checkPortAvailability options srv
            = checkPortAvailability
                (mkListen (l_port options) (l_host options) VUndefined) srv).
Proof.
  intros Hfalsy.
  assert (timeoutMs options = VInt 1000) as Hms.
  { unfold timeoutMs, js_or. rewrite Hfalsy. reflexivity. }
  assert (∀ srv, checkPortAvailability options srv
                 = checkPortAvailability
                     (mkListen (l_port options) (l_host options) (VInt 1000)) srv)
    as Hsame.
  { intros srv. unfold checkPortAvailability. rewrite Hms. reflexivity. }
  assert (∀ srv, checkPortAvailability_timed options srv
                 = Some (checkPortAvailability options (before_timer 1000 srv)))
    as Htimed.
  { intros srv. unfold checkPortAvailability_timed. rewrite Hms. reflexivity. }
  split; [exact Hms|].
  split; [rewrite Hms; reflexivity|].
  split; [|split; [|split; [|split; [|split]]]].
  - intros port d Hd. rewrite Htimed. unfold before_timer. cbn [after answer].
    assert ((d <? 1000) = true) as -> by lia. reflexivity.
  - intros err d Hd. rewrite Htimed. unfold before_timer. cbn [after answer].
    assert ((d <? 1000) = true) as -> by lia. reflexivity.
  - intros srv Hlate. rewrite Htimed. f_equal.
    assert (before_timer 1000 srv = Silent) as ->.
    { unfold before_timer. destruct Hlate as [Hlate|Hsilent].
      - assert ((after srv <? 1000) = false) as -> by lia. reflexivity.
      - rewrite Hsilent. destruct (after srv <? 1000); reflexivity. }
    rewrite Hsame. vm_compute. reflexivity.
  - intros srv. rewrite Htimed. unfold checkPortAvailability_timed.
    change (timeoutMs (mkListen (l_port options) (l_host options) (VInt 1000)))
      with (VInt 1000).
    cbn [setTimeout_delay]. change (Node_timer_delay 1000) with 1000.
    f_equal. apply Hsame.
  - exact Hsame.
  - intros srv. unfold checkPortAvailability. rewrite Hms. reflexivity.
Qed.

Lemma falsy_timeout_is_default_witness :
  timeoutMs (mkListen 3000 None (VInt 0)) = VInt 1000
  ∧ setTimeout_delay (timeoutMs (mkListen 3000 None (VInt 0))) = Some 1000
  ∧ (∀ port d, d < 1000 →
       checkPortAvailability_timed (mkListen 3000 None (VInt 0))
         (mkTimed (Listening (AddrInfo port)) d)
       = Some (Resolved port))
  ∧ (∀ err d, d < 1000 →
       checkPortAvailability_timed (mkListen 3000 None (VInt 0))
         (mkTimed (ErrorEvent err) d)
       = Some (Rejected err))
  ∧ (∀ srv, 1000 ≤ after srv ∨ answer srv = Silent →
       checkPortAvailability_timed (mkListen 3000 None (VInt 0)) srv
       = Some (Rejected (new_Error "Port check timed out after 1000ms")))
  ∧ (∀ srv, checkPortAvailability_timed (mkListen 3000 None (VInt 0)) srv
            = checkPortAvailability_timed (mkListen 3000 None (VInt 1000)) srv)
  ∧ (∀ srv, checkPortAvailability (mkListen 3000 None (VInt 0)) srv
            = checkPortAvailability (mkListen 3000 None (VInt 1000)) srv)
  ∧ (∀ srv, checkPortAvailability (mkListen 3000 None (VInt 0)) srv
            = checkPortAvailability (mkListen 3000 None VUndefined) srv).
Proof.
  apply (falsy_timeout_is_default (mkListen 3000 None (VInt 0))). reflexivity.
Defined.

(** ** The selector: what a call does before any probe *)

Lemma arm_locked (w : World) : locked (manager (arm w)) = locked (manager w).
Proof. unfold arm. destruct (cleanupTimer (manager w)); reflexivity. Qed.

Lemma arm_journal (w : World) : journal (arm w) = journal w.
Proof. unfold arm. destruct (cleanupTimer (manager w)); reflexivity. Qed.

Lemma arm_tick (w : World) : tick (arm w) = tick w.
Proof. unfold arm. destruct (cleanupTimer (manager w)); reflexivity. Qed.

Lemma arm_locked_has (w : World) (p : Z) :
  locked_has (manager (arm (record Entered w))) p = locked_has (manager w) p.
Proof. unfold locked_has. rewrite arm_locked. reflexivity. Qed.

Lemma arm_armed (w : World) : is_Some (cleanupTimer (manager (arm w))).
Proof.
  unfold arm. destruct (cleanupTimer (manager w)) eqn:E; simpl.
  - rewrite E. eauto.
  - eauto.
Qed.

(** C9.  With [port: []] the call rejects with the generic
    "No available ports found" error; it probes nothing, consumes no
    round of the environment and leaves the lock table as it was: no
    ephemeral candidate 0 stands in for the empty list. *)
Theorem empty_preference_list (fuel : nat) (env : nat → Round) (options : Options)
    (interfaces : list (option (list InterfaceInfo))) (w : World) :
  port options = PortMany [] →
  ∃ w', getOpenPort fuel env options interfaces w
        = Throws w' (new_Error "No available ports found")
        ∧ probes (journal w') = probes (journal w)
        ∧ tick w' = tick w
        ∧ locked (manager w') = locked (manager w).
Proof.
  intros Hport. exists (arm (record Entered w)).
  split.
  - unfold getOpenPort. rewrite Hport. reflexivity.
  - rewrite arm_journal, arm_tick, arm_locked. auto.
Qed.

Lemma empty_preference_list_witness :
  ∃ w', getOpenPort 0 (calm 40000) (mkOptions (PortMany []) None VUndefined None)
                    eth0 initial
        = Throws w' (new_Error "No available ports found")
        ∧ probes (journal w') = probes (journal initial)
        ∧ tick w' = tick initial
        ∧ locked (manager w') = locked (manager initial).
Proof.
  apply (empty_preference_list 0 (calm 40000)
           (mkOptions (PortMany []) None VUndefined None) eth0 initial).
  reflexivity.
Defined.

(** C6.  A call that requests the single non-zero port [p] while [p] is
    in the lock table rejects with a [LockedPortError]; it issues no
    probe at all, so none for [p]. *)
Theorem locked_port_rejected (fuel : nat) (env : nat → Round) (options : Options)
    (interfaces : list (option (list InterfaceInfo))) (w : World) (p : Z) :
  p ≠ 0 →
  locked_has (manager w) p = true →
  port options = PortOne p ∨ port options = PortMany [p] →
  ∃ w', getOpenPort fuel env options interfaces w
        = Throws w' (LockedPortError (VInt p))
        ∧ instanceof_LockedPortError (LockedPortError (VInt p)) = true
        ∧ probes (journal w') = probes (journal w)
        ∧ tick w' = tick w.
Proof.
  intros Hp Hlocked Hport. exists (arm (record Entered w)).
  assert (negb (p =? 0) = true) as Hnz by (apply negb_true_iff; lia).
  split; [|split; [reflexivity|]].
  - unfold getOpenPort.
    assert (createPorts
              match port options with
              | PortMany ports => Some (new_Set ports)
              | PortOne port => Some [port]
              | PortAbsent => None
              end = [p]) as ->.
    { destruct Hport as [-> | ->]; reflexivity. }
    unfold scan, try_candidate.
    rewrite arm_locked_has, Hlocked, orb_true_r, Hnz. simpl andb. cbv iota.
    rewrite LockedPortError_not_in_use, LockedPortError_instanceof.
    rewrite andb_false_r. simpl existsb. simpl find.
    rewrite arm_locked_has, Hlocked. reflexivity.
  - rewrite arm_journal, arm_tick. auto.
Qed.

Lemma locked_port_rejected_witness :
  ∃ w', getOpenPort 0 (calm 40000) (mkOptions (PortOne 8080) None VUndefined None)
                    eth0 (lock 8080 0 initial)
        = Throws w' (LockedPortError (VInt 8080))
        ∧ instanceof_LockedPortError (LockedPortError (VInt 8080)) = true
        ∧ probes (journal w') = probes (journal (lock 8080 0 initial))
        ∧ tick w' = tick (lock 8080 0 initial).
Proof.
  apply (locked_port_rejected 0 (calm 40000)
           (mkOptions (PortOne 8080) None VUndefined None) eth0
           (lock 8080 0 initial) 8080);
    [lia | vm_compute; reflexivity | left; reflexivity].
Defined.

(** C1.  With [exclude: [40000]] and no preferred port, the candidate
    probed is the ephemeral 0, which is not excluded; when the system
    then binds 40000, the call resolves to 40000, an excluded port.  The
    exclusion set is consulted for the candidate only, the lock table
    for the bound port as well. *)
Theorem excluded_port_returned :
  ∃ w', getOpenPort 0 (calm 40000)
                    (mkOptions PortAbsent (Some [40000]) VUndefined None)
                    eth0 initial
        = Returns w' 40000
        ∧ Set_has (new_Set [40000]) 40000 = true
        ∧ probes (journal w') = [mkListen 0 None VUndefined].
Proof. eexists. vm_compute. repeat split; reflexivity. Qed.

(** ** The selector: errors during candidate iteration *)

Lemma scan_cons (fuel : nat) (env : nat → Round) (options : Options)
    (excluded : list Z) (hosts : list Host) (port : Z) (rest : list Z) (w : World) :
  scan fuel env options excluded hosts (port :: rest) w
  = match try_candidate fuel env options excluded hosts port w with
    | Returns w' (Some availablePort) => Returns w' (Some availablePort)
    | Returns w' None => scan fuel env options excluded hosts rest w'
    | Throws w' error =>
        if code_is error "EADDRINUSE" then Throws w' error
        else if negb (code_is error "EACCES")
                && negb (instanceof_LockedPortError error)
        then Throws w' error
        else scan fuel env options excluded hosts rest w'
    | Hangs w' => Hangs w'
    | OutOfFuel => OutOfFuel
    end.
Proof. reflexivity. Qed.

Example getOpenPort_default :
  ∃ w', getOpenPort 0 (calm 12345) no_options eth0 initial = Returns w' 12345
        ∧ locked (manager w') !! 12345 = Some 1000
        ∧ probes (journal w') = [mkListen 0 None VUndefined].
Proof. eexists. vm_compute. repeat split; reflexivity. Qed.

Example getOpenPort_specific :
  ∃ w', getOpenPort 0 (calm 40000) (mkOptions (PortOne 12345) None VUndefined None)
                    eth0 initial
        = Returns w' 12345
        ∧ probes (journal w')
          = [mkListen 12345 (Some "192.168.1.1") VUndefined;
             mkListen 12345 (Some "0.0.0.0") VUndefined;
             mkListen 12345 None VUndefined].
Proof. eexists. vm_compute. repeat split; reflexivity. Qed.

Example getOpenPort_in_use :
  ∃ w', getOpenPort 0 in_use_3000
                    (mkOptions (PortMany [3000; 3001]) None VUndefined None)
                    eth0 initial
        = Throws w' (system_error "EADDRINUSE")
        ∧ locked (manager w') = ∅.
Proof. eexists. vm_compute. repeat split; reflexivity. Qed.

Example getOpenPort_permission_denied :
  ∃ w', getOpenPort 0 denied_80
                    (mkOptions (PortMany [80; 3001]) None VUndefined None)
                    eth0 initial
        = Returns w' 3001.
Proof. eexists. vm_compute. reflexivity. Qed.

Example getOpenPort_timeout :
  ∃ w', getOpenPort 0 unresponsive (mkOptions PortAbsent None (VInt 100) None)
                    eth0 initial
        = Throws w' (new_Error "Port check timed out after 100ms").
Proof. eexists. vm_compute. reflexivity. Qed.

Example getOpenPort_all_locked :
  ∃ w', getOpenPort 0 (calm 40000)
                    (mkOptions (PortMany [3000; 3001]) None VUndefined None)
                    eth0 (lock 3001 0 (lock 3000 0 initial))
        = Throws w' (LockedPortError (VInt 3000))
        ∧ probes (journal w') = [].
Proof. eexists. vm_compute. repeat split; reflexivity. Qed.

(** C7.  When the attempt on a candidate fails with [error], leaving the
    world [w']: an "address in use" error ends the whole iteration with
    that error in that very world, so no further candidate is tried; a
    "permission denied" error or a [LockedPortError] is swallowed and the
    iteration goes on with the next candidate from [w']; any other error
    ends the iteration like "address in use". *)
Theorem candidate_error_policy (fuel : nat) (env : nat → Round) (options : Options)
    (excluded : list Z) (hosts : list Host) (port : Z) (rest : list Z)
    (w w' : World) (error : JsError) :
  try_candidate fuel env options excluded hosts port w = Throws w' error →
  (code_is error "EADDRINUSE" = true →
   scan fuel env options excluded hosts (port :: rest) w = Throws w' error)
  ∧ (code_is error "EACCES" = true ∨ (∃ v, error = LockedPortError v) →
     scan fuel env options excluded hosts (port :: rest) w
     = scan fuel env options excluded hosts rest w')
  ∧ (code_is error "EADDRINUSE" = false →
     code_is error "EACCES" = false →
     instanceof_LockedPortError error = false →
     scan fuel env options excluded hosts (port :: rest) w = Throws w' error).
Proof.
  intros Hfail. rewrite scan_cons, Hfail.
  split; [|split].
  - intros ->. reflexivity.
  - intros [Hacces | [v ->]].
    + rewrite (code_is_functional error "EACCES" "EADDRINUSE" Hacces) by discriminate.
      rewrite Hacces. reflexivity.
    + rewrite LockedPortError_not_in_use, LockedPortError_instanceof.
      rewrite andb_false_r. reflexivity.
  - intros -> -> ->. reflexivity.
Qed.

Lemma candidate_error_policy_witness :
  ∃ w', scan 0 in_use_3000 (mkOptions (PortMany [3000; 3001]) None VUndefined None)
             [] (createHosts eth0) [3000; 3001] initial
        = Throws w' (system_error "EADDRINUSE")
        ∧ probes (journal w')
          = [mkListen 3000 (Some "192.168.1.1") VUndefined;
             mkListen 3000 (Some "0.0.0.0") VUndefined;
             mkListen 3000 None VUndefined].
Proof.
  eexists. split.
  - refine (proj1 (candidate_error_policy 0 in_use_3000
                     (mkOptions (PortMany [3000; 3001]) None VUndefined None)
                     [] (createHosts eth0) 3000 [3001] initial _ _ _) _);
      vm_compute; reflexivity.
  - vm_compute. reflexivity.
Defined.

(** ** What every step of a call preserves *)

Section Preservation.

Variable P : World → Prop.
Hypothesis P_await :
  ∀ env options hosts w, P w → P (await_verifyPort env options hosts w).1.
Hypothesis P_reserve : ∀ port w, P w → P (reserve port w).

Lemma relock_preserves fuel env options hosts port :
  ∀ w availablePort w',
    P w →
    final (relock fuel env options hosts port w availablePort) = Some w' →
    P w'.
Proof.
  induction fuel as [|fuel IH]; intros w availablePort w' Hw; simpl;
    destruct (locked_has (manager w) availablePort);
    destruct (negb (port =? 0)); simpl;
    try (intros [= <-]; exact Hw); try discriminate.
  pose proof (P_await env (listen_options options 0) hosts w Hw) as Hnext.
  destruct (await_verifyPort env (listen_options options 0) hosts w)
    as [w1 [fresh|e|]]; simpl in *.
  - apply IH. exact Hnext.
  - intros [= <-]. exact Hnext.
  - intros [= <-]. exact Hnext.
Qed.

Lemma try_candidate_preserves fuel env options excluded hosts port w w' :
  P w →
  final (try_candidate fuel env options excluded hosts port w) = Some w' →
  P w'.
Proof.
  intros Hw. unfold try_candidate.
  destruct (Set_has excluded port || locked_has (manager w) port).
  { destruct (locked_has (manager w) port && negb (port =? 0)); simpl;
      intros [= <-]; exact Hw. }
  pose proof (P_await env (listen_options options port) hosts w Hw) as Hnext.
  destruct (await_verifyPort env (listen_options options port) hosts w)
    as [w1 [availablePort|e|]]; simpl in *;
    try (intros [= <-]; exact Hnext).
  pose proof (relock_preserves fuel env options hosts port w1 availablePort) as Hloop.
  destruct (relock fuel env options hosts port w1 availablePort)
    as [w2 p|w2 e|w2|]; simpl in *; try discriminate.
  - intros [= <-]. apply P_reserve. apply Hloop; [exact Hnext|reflexivity].
  - intros [= <-]. apply Hloop; [exact Hnext|reflexivity].
  - intros [= <-]. apply Hloop; [exact Hnext|reflexivity].
Qed.

Lemma scan_preserves fuel env options excluded hosts ports :
  ∀ w w',
    P w →
    final (scan fuel env options excluded hosts ports w) = Some w' →
    P w'.
Proof.
  induction ports as [|port rest IH]; intros w w' Hw.
  { simpl. intros [= <-]. exact Hw. }
  rewrite scan_cons.
  pose proof (try_candidate_preserves fuel env options excluded hosts port w) as Hone.
  destruct (try_candidate fuel env options excluded hosts port w)
    as [w1 [p|]|w1 e|w1|]; simpl in *; try discriminate.
  - intros [= <-]. apply Hone; [exact Hw|reflexivity].
  - apply IH. apply Hone; [exact Hw|reflexivity].
  - destruct (code_is e "EADDRINUSE");
      [intros [= <-]; apply Hone; [exact Hw|reflexivity]|].
    destruct (negb (code_is e "EACCES") && negb (instanceof_LockedPortError e));
      [intros [= <-]; apply Hone; [exact Hw|reflexivity]|].
    apply IH. apply Hone; [exact Hw|reflexivity].
  - intros [= <-]. apply Hone; [exact Hw|reflexivity].
Qed.

Lemma getOpenPort_preserves fuel env options interfaces w w' :
  P (arm (record Entered w)) →
  final (getOpenPort fuel env options interfaces w) = Some w' →
  P w'.
Proof.
  intros Hw. unfold getOpenPort.
  match goal with
  | |- context [scan ?f ?e ?o ?x ?h ?ps ?w0] =>
      pose proof (scan_preserves f e o x h ps w0) as Hscan;
      destruct (scan f e o x h ps w0) as [w1 [p|]|w1 err|w1|]
  end; simpl in *; try discriminate.
  - intros [= <-]. apply Hscan; [exact Hw|reflexivity].
  - match goal with |- context [existsb ?f ?l] => destruct (existsb f l) end;
      simpl; intros [= <-]; apply Hscan; (exact Hw || reflexivity).
  - intros [= <-]. apply Hscan; [exact Hw|reflexivity].
  - intros [= <-]. apply Hscan; [exact Hw|reflexivity].
Qed.

End Preservation.

(** ** The sweep timer *)

Lemma entered_since_clear_probed (ps : list ListenOptions) (j : list Event) :
  entered_since_clear (rev (map (λ o, Probed o (timeoutMs o)) ps) ++ j)
  = entered_since_clear j.
Proof.
  revert j. induction ps as [|o ps IH]; intros j; [reflexivity|].
  simpl. rewrite <- app_assoc. rewrite IH. reflexivity.
Qed.

Lemma perform_armed_iff_entered (a : Act) (w : World) :
  armed_iff_entered w → armed_iff_entered (perform w a).
Proof.
  unfold armed_iff_entered. intros Hw. destruct a as [now|p ts|]; simpl.
  - unfold timerFires.
    destruct (cleanupTimer (manager w)) eqn:E; simpl; rewrite ?E; exact Hw.
  - exact Hw.
  - unfold clearLockedPorts.
    destruct (cleanupTimer (manager w)) eqn:E; simpl; rewrite ?E;
      split; intros H; try discriminate H; destruct H as [? H]; discriminate H.
Qed.

Lemma foldl_perform_armed_iff_entered (acts : list Act) :
  ∀ w, armed_iff_entered w → armed_iff_entered (foldl perform w acts).
Proof.
  induction acts as [|a acts IH]; intros w Hw; simpl; [exact Hw|].
  apply IH, perform_armed_iff_entered, Hw.
Qed.

Lemma await_armed_iff_entered env options hosts w :
  armed_iff_entered w →
  armed_iff_entered (await_verifyPort env options hosts w).1.
Proof.
  intros Hw. unfold await_verifyPort.
  destruct (verifyPort options hosts (env (tick w))) as [ps outcome]. simpl.
  match goal with
  | |- armed_iff_entered (mkWorld (manager ?r) _ (tick ?r) (journal ?r)) =>
      assert (armed_iff_entered r) as Hr; [|exact Hr]
  end.
  apply foldl_perform_armed_iff_entered.
  unfold armed_iff_entered. simpl. rewrite entered_since_clear_probed. exact Hw.
Qed.

Lemma reserve_armed_iff_entered port w :
  armed_iff_entered w → armed_iff_entered (reserve port w).
Proof. intros Hw. exact Hw. Qed.

Lemma enter_armed_iff_entered w : armed_iff_entered (arm (record Entered w)).
Proof.
  unfold armed_iff_entered. rewrite arm_journal. simpl.
  split; [reflexivity|]. intros _. apply arm_armed.
Qed.

(** C3, as the code has it.  In every reachable state the timer handle is
    non-null exactly when [getOpenPort] has been entered since the start
    or the last clear, whether or not that call reserved a port; the
    handle is null initially and after a full clear. *)
Theorem timer_armed_iff_entered (env : nat → Round) (w : World) :
  reachable env w →
  (is_Some (cleanupTimer (manager w)) ↔ entered_since_clear (journal w) = true)
  ∧ cleanupTimer (manager initial) = None
  ∧ cleanupTimer (manager (clearLockedPorts w)) = None.
Proof.
  intros Hreach. split; [|split].
  - change (armed_iff_entered w).
    induction Hreach as [|fuel options interfaces w w' _ IH Hcall|a w _ IH].
    + split; [intros [? H]; discriminate H|discriminate].
    + apply (getOpenPort_preserves armed_iff_entered
               await_armed_iff_entered reserve_armed_iff_entered
               fuel env options interfaces w w'); [|exact Hcall].
      apply enter_armed_iff_entered.
    + apply perform_armed_iff_entered, IH.
  - reflexivity.
  - unfold clearLockedPorts.
    destruct (cleanupTimer (manager w)) eqn:E; simpl; [reflexivity|exact E].
Qed.

Lemma timer_armed_iff_entered_witness :
  (is_Some (cleanupTimer (manager (arm (record Entered initial))))
   ↔ entered_since_clear (journal (arm (record Entered initial))) = true)
  ∧ cleanupTimer (manager initial) = None
  ∧ cleanupTimer (manager (clearLockedPorts (arm (record Entered initial)))) = None.
Proof.
  apply (timer_armed_iff_entered (calm 40000)).
  apply (reach_call (calm 40000) 0 (mkOptions (PortMany []) None VUndefined None)
                    eth0 initial).
  - apply reach_initial.
  - reflexivity.
Defined.

(** C3, as stated, fails: after a call that reserved nothing the timer is
    armed. *)
Lemma timer_armed_without_reservation :
  ¬ (∀ w, reachable (calm 40000) w →
          (is_Some (cleanupTimer (manager w))
           ↔ reserved_since_clear (journal w) = true)).
Proof.
  intros Hclaim.
  assert (reachable (calm 40000) (arm (record Entered initial))) as Hreach.
  { apply (reach_call (calm 40000) 0 (mkOptions (PortMany []) None VUndefined None)
                      eth0 initial); [apply reach_initial|reflexivity]. }
  destruct (Hclaim _ Hreach) as [Harmed _].
  assert (is_Some (cleanupTimer (manager (arm (record Entered initial))))) as Hsome
    by (vm_compute; eauto).
  specialize (Harmed Hsome). vm_compute in Harmed. discriminate Harmed.
Qed.

(** A clear that runs while a call is suspended leaves the reservation
    of that call without a sweep. *)
Example reservation_after_clear :
  ∃ w', getOpenPort 0 (λ i, mkRound (binds 40000) (λ _, 0) [Clears] 1000)
                    no_options eth0 initial
        = Returns w' 40000
        ∧ locked (manager w') !! 40000 = Some 1000
        ∧ cleanupTimer (manager w') = None.
Proof. eexists. vm_compute. repeat split; reflexivity. Qed.

(** ** The fan-out over hosts *)

Example verifyPort_ephemeral_single_probe :
  verifyPort (mkListen 0 None VUndefined) (createHosts eth0) (calm 40000 0)
  = ([mkListen 0 None VUndefined], Resolved 40000).
Proof. reflexivity. Qed.

Example verifyPort_explicit_host_single_probe :
  verifyPort (mkListen 3000 (Some "127.0.0.1") VUndefined) (createHosts eth0) (calm 40000 0)
  = ([mkListen 3000 (Some "127.0.0.1") VUndefined], Resolved 3000).
Proof. reflexivity. Qed.

Lemma Promise_all_cons {A} (t : Z) (p : Promise A) (ps : list (Z * Promise A))
    (vs : list A) :
  Promise_all ((t, p) :: ps) = Resolved vs
  ↔ ∃ v vs', p = Resolved v ∧ vs = v :: vs' ∧ Promise_all ps = Resolved vs'.
Proof.
  unfold Promise_all. destruct p as [v|e|]; simpl.
  - destruct (first_rejection ps) as [[t' e']|].
    + split; [discriminate|]. intros (v0 & vs' & _ & _ & H). discriminate H.
    + destruct (all_values ps) as [vs0|]; simpl.
      * split.
        -- intros [= <-]. exists v, vs0. auto.
        -- intros (v0 & vs' & [= <-] & -> & [= <-]). reflexivity.
      * split; [discriminate|]. intros (v0 & vs' & _ & _ & H). discriminate H.
  - split.
    + destruct (first_rejection ps) as [[t' e']|]; [destruct (t' <? t)|];
        discriminate.
    + intros (v0 & vs' & H & _). discriminate H.
  - split.
    + destruct (first_rejection ps) as [[t' e']|]; discriminate.
    + intros (v0 & vs' & H & _). discriminate H.
Qed.

(** [Promise.all] resolves exactly when every promise resolved, with the
    values in the order of the promises, whenever each of them settled. *)
Lemma Promise_all_resolved {A B} (t : B → Z) (f : B → Promise A) (xs : list B) :
  ∀ vs, Promise_all (map (λ x, (t x, f x)) xs) = Resolved vs
        ↔ Forall2 (λ x v, f x = Resolved v) xs vs.
Proof.
  induction xs as [|x xs IH]; intros vs; simpl.
  - split.
    + intros [= <-]. constructor.
    + intros H. inversion H. reflexivity.
  - rewrite Promise_all_cons. split.
    + intros (v & vs' & Hx & -> & Hrest). constructor; [exact Hx|].
      apply IH, Hrest.
    + intros H. inversion H as [|? v ? vs' Hx Hrest]; subst.
      exists v, vs'. split; [exact Hx|]. split; [reflexivity|].
      apply IH, Hrest.
Qed.

Lemma find_number_first {B} (f : B → Promise (option Z)) (xs : list B)
    (vs : list (option Z)) (p : Z) :
  Forall2 (λ x v, f x = Resolved v) xs vs →
  find_number vs = Some p
  ↔ ∃ pre x post, xs = pre ++ x :: post
                  ∧ f x = Resolved (Some p)
                  ∧ ∀ x', x' ∈ pre → f x' = Resolved None.
Proof.
  intros Hres. induction Hres as [|x v xs' vs' Hx Hrest IH]; simpl.
  - split; [discriminate|].
    intros (pre & x & post & H & _). destruct pre; discriminate H.
  - destruct v as [q|].
    + split.
      * intros [= ->]. exists [], x, xs'. split; [reflexivity|].
        split; [exact Hx|]. intros x' Hx'. inversion Hx'.
      * intros (pre & y & post & Heq & Hy & Hpre).
        destruct pre as [|z pre]; simpl in Heq; injection Heq as <- ->.
        -- rewrite Hx in Hy. injection Hy as ->. reflexivity.
        -- specialize (Hpre x ltac:(left)). rewrite Hx in Hpre. discriminate Hpre.
    + rewrite IH. split.
      * intros (pre & y & post & -> & Hy & Hpre).
        exists (x :: pre), y, post. split; [reflexivity|]. split; [exact Hy|].
        intros x' Hx'. apply elem_of_cons in Hx' as [->|Hx']; [exact Hx|].
        apply Hpre, Hx'.
      * intros (pre & y & post & Heq & Hy & Hpre).
        destruct pre as [|z pre]; simpl in Heq; injection Heq as <- ->.
        -- rewrite Hx in Hy. discriminate Hy.
        -- exists pre, y, post. split; [reflexivity|]. split; [exact Hy|].
           intros x' Hx'. apply Hpre. right. exact Hx'.
Qed.

Lemma all_resolved_values {A B} (f : B → Promise A) (xs : list B) :
  (∀ x, x ∈ xs → ∃ r, f x = Resolved r) →
  ∃ vs, Forall2 (λ x v, f x = Resolved v) xs vs.
Proof.
  induction xs as [|x xs IH]; intros Hall.
  - exists []. constructor.
  - destruct (Hall x ltac:(left)) as [r Hr].
    destruct IH as [vs Hvs]; [intros y Hy; apply Hall; right; exact Hy|].
    exists (r :: vs). constructor; assumption.
Qed.

Lemma Forall2_resolved_all {A B} (f : B → Promise A) (xs : list B) (vs : list A) :
  Forall2 (λ x v, f x = Resolved v) xs vs →
  ∀ x, x ∈ xs → ∃ r, f x = Resolved r.
Proof.
  intros Hres. induction Hres as [|x v xs' vs' Hx _ IH]; intros y Hy.
  - inversion Hy.
  - apply elem_of_cons in Hy as [->|Hy]; [eauto|apply IH, Hy].
Qed.

(** X29.  In the fan-out (no explicit host, a non-zero port)
    [verifyPort] resolves to [p] exactly when every probe settled without
    an error other than "address not available" and "invalid argument",
    [p] is not 0, and [p] is the result of the first successful probe in
    the iteration order of the host set: [Promise.all] keeps the order of
    the hosts, and the instants at which the probes settle play no
    part. *)
Theorem fanout_first_in_host_order (options : ListenOptions) (hosts : list Host)
    (rd : Round) (p : Z) :
  host_given (l_host options) = false →
  l_port options ≠ 0 →
  (verifyPort options hosts rd).2 = Resolved p
  ↔ p ≠ 0
    ∧ (∀ h, h ∈ hosts → ∃ r, probe_host options rd h = Resolved r)
    ∧ ∃ pre h post, hosts = pre ++ h :: post
                    ∧ probe_host options rd h = Resolved (Some p)
                    ∧ ∀ h', h' ∈ pre → probe_host options rd h' = Resolved None.
Proof.
  intros Hhost Hport. unfold verifyPort.
  rewrite Hhost. assert ((l_port options =? 0) = false) as -> by lia.
  simpl.
  pose proof (Promise_all_resolved (settledAt rd) (probe_host options rd) hosts)
    as Hall.
  destruct (Promise_all (map (λ h, (settledAt rd h, probe_host options rd h)) hosts))
    as [results|e|].
  - pose proof (proj1 (Hall results) eq_refl) as Hres.
    pose proof (find_number_first (probe_host options rd) hosts results p Hres)
      as Hfind.
    split.
    + destruct (find_number results) as [validPort|] eqn:Hv; [|discriminate].
      destruct (validPort =? 0) eqn:Hz; [discriminate|].
      intros [= ->]. split; [lia|].
      split; [exact (Forall2_resolved_all _ _ _ Hres)|].
      apply Hfind. reflexivity.
    + intros (Hp & _ & Hfirst). apply Hfind in Hfirst. rewrite Hfirst.
      assert ((p =? 0) = false) as -> by lia. reflexivity.
  - split; [discriminate|]. intros (_ & Hevery & _).
    destruct (all_resolved_values _ _ Hevery) as [vs Hvs].
    apply Hall in Hvs. discriminate Hvs.
  - split; [discriminate|]. intros (_ & Hevery & _).
    destruct (all_resolved_values _ _ Hevery) as [vs Hvs].
    apply Hall in Hvs. discriminate Hvs.
Qed.

Lemma fanout_first_in_host_order_witness :
  (verifyPort (mkListen 3000 None VUndefined) (createHosts eth0) (calm 40000 0)).2
  = Resolved 3000
  ↔ 3000 ≠ 0
    ∧ (∀ h, h ∈ createHosts eth0 →
            ∃ r, probe_host (mkListen 3000 None VUndefined) (calm 40000 0) h = Resolved r)
    ∧ ∃ pre h post,
        createHosts eth0 = pre ++ h :: post
        ∧ probe_host (mkListen 3000 None VUndefined) (calm 40000 0) h
          = Resolved (Some 3000)
        ∧ ∀ h', h' ∈ pre →
                probe_host (mkListen 3000 None VUndefined) (calm 40000 0) h'
                = Resolved None.
Proof.
  apply (fanout_first_in_host_order (mkListen 3000 None VUndefined)
           (createHosts eth0) (calm 40000 0) 3000); [reflexivity | simpl; lia].
Defined.

(** ** The re-verify loop *)

Example relock_unlocked_returns_at_once :
  relock 0 (calm 40000) no_options (createHosts eth0) 0 initial 40000
  = Returns initial 40000.
Proof. reflexivity. Qed.

Example relock_second_try :
  ∃ w', relock 1 rotating no_options (createHosts eth0) 0 (lock 40000 0 initial) 40000
        = Returns w' 40001
        ∧ probes (journal w') = [mkListen 0 None VUndefined].
Proof. eexists. vm_compute. split; reflexivity. Qed.

Lemma chase_S (k : nat) (env : nat → Round) (options : Options)
    (hosts : list Host) (w : World) (availablePort : Z) :
  chase (S k) env options hosts w availablePort
  = match await_verifyPort env (listen_options options 0) hosts w with
    | (w', Resolved fresh) => chase k env options hosts w' fresh
    | _ => None
    end.
Proof. reflexivity. Qed.

Lemma relock_unlocked (fuel : nat) (env : nat → Round) (options : Options)
    (hosts : list Host) (port : Z) (w : World) (availablePort : Z) :
  locked_has (manager w) availablePort = false →
  relock fuel env options hosts port w availablePort = Returns w availablePort.
Proof. intros H. destruct fuel; simpl; rewrite H; reflexivity. Qed.

Lemma relock_locked_ephemeral (fuel : nat) (env : nat → Round) (options : Options)
    (hosts : list Host) (w : World) (availablePort : Z) :
  locked_has (manager w) availablePort = true →
  relock (S fuel) env options hosts 0 w availablePort
  = match await_verifyPort env (listen_options options 0) hosts w with
    | (w', Resolved fresh) => relock fuel env options hosts 0 w' fresh
    | (w', Rejected e) => Throws w' e
    | (w', Pending) => Hangs w'
    end.
Proof. intros H. simpl. rewrite H. reflexivity. Qed.

(** What the loop returns is not in the lock table when it returns. *)
Lemma relock_returns_unlocked (fuel : nat) (env : nat → Round) (options : Options)
    (hosts : list Host) (port : Z) :
  ∀ w availablePort w' p,
    relock fuel env options hosts port w availablePort = Returns w' p →
    locked_has (manager w') p = false.
Proof.
  induction fuel as [|fuel IH]; intros w availablePort w' p; simpl;
    destruct (locked_has (manager w) availablePort) eqn:Hl;
    destruct (negb (port =? 0)); try discriminate;
    try (intros [= <- <-]; exact Hl).
  destruct (await_verifyPort env (listen_options options 0) hosts w)
    as [w1 [fresh|e|]]; try discriminate.
  apply IH.
Qed.

(** C5, as the code has it.  The loop has no iteration cap.  With the
    ephemeral candidate 0: when [k] fresh ephemeral requests in a row
    resolve, the port the loop started with and the first [k - 1] of
    those obtained being in the lock table at the time and the last one
    not, the loop returns that last port after exactly those [k]
    requests, under every budget of at least [k] iterations; and when
    the requests keep resolving to ports that are in the lock table at
    the time, the loop outruns the budget, whatever it is. *)
Theorem relock_ends_at_first_unlocked (env : nat → Round) (options : Options)
    (hosts : list Host) :
  ∀ (fuel : nat) (w : World) (availablePort : Z),
    (∀ k wk pk,
        (k ≤ fuel)%nat →
        chase k env options hosts w availablePort = Some (wk, pk) →
        locked_has (manager wk) pk = false →
        (∀ i wi pi, (i < k)%nat →
                    chase i env options hosts w availablePort = Some (wi, pi) →
                    locked_has (manager wi) pi = true) →
        relock fuel env options hosts 0 w availablePort = Returns wk pk)
    ∧ ((∀ i, (i ≤ fuel)%nat →
             ∃ wi pi, chase i env options hosts w availablePort = Some (wi, pi)
                      ∧ locked_has (manager wi) pi = true) →
       relock fuel env options hosts 0 w availablePort = OutOfFuel).
Proof.
  induction fuel as [|fuel IH]; intros w availablePort; split.
  - intros k wk pk Hk Hchase Hfree _.
    assert (k = 0%nat) as -> by lia.
    injection Hchase as <- <-. apply relock_unlocked, Hfree.
  - intros Hbusy.
    destruct (Hbusy 0%nat ltac:(lia)) as (wi & pi & [= <- <-] & Hl).
    simpl. rewrite Hl. reflexivity.
  - intros [|k] wk pk Hk Hchase Hfree Hbusy.
    { injection Hchase as <- <-. apply relock_unlocked, Hfree. }
    rewrite relock_locked_ephemeral
      by (apply (Hbusy 0%nat w availablePort); [lia|reflexivity]).
    rewrite chase_S in Hchase.
    pose proof (λ i, Hbusy (S i)) as Hbusy'.
    setoid_rewrite chase_S in Hbusy'.
    destruct (await_verifyPort env (listen_options options 0) hosts w)
      as [w1 [fresh|e|]]; try discriminate Hchase.
    apply (proj1 (IH w1 fresh) k); [lia|exact Hchase|exact Hfree|].
    intros i wi pi Hi. apply Hbusy'. lia.
  - intros Hbusy.
    destruct (Hbusy 0%nat ltac:(lia)) as (w0 & p0 & [= <- <-] & Hl).
    rewrite relock_locked_ephemeral by exact Hl.
    pose proof (λ i (Hi : (i ≤ fuel)%nat), Hbusy (S i) ltac:(lia)) as Hbusy'.
    setoid_rewrite chase_S in Hbusy'.
    destruct (await_verifyPort env (listen_options options 0) hosts w)
      as [w1 [fresh|e|]].
    + apply (proj2 (IH w1 fresh)). exact Hbusy'.
    + destruct (Hbusy' 0%nat ltac:(lia)) as (? & ? & H & _). discriminate H.
    + destruct (Hbusy' 0%nat ltac:(lia)) as (? & ? & H & _). discriminate H.
Qed.

Lemma relock_ends_at_first_unlocked_witness :
  (∃ wk, relock 1 rotating no_options (createHosts eth0) 0 (lock 40000 0 initial) 40000
         = Returns wk 40001)
  ∧ relock 1 (stubborn 40000) no_options (createHosts eth0) 0 (lock 40000 0 initial) 40000
    = OutOfFuel.
Proof.
  split.
  - eexists.
    apply (proj1 (relock_ends_at_first_unlocked rotating no_options (createHosts eth0) 1
                    (lock 40000 0 initial) 40000) 1%nat).
    + lia.
    + vm_compute. reflexivity.
    + vm_compute. reflexivity.
    + intros i wi pi Hi Hchase.
      assert (i = 0%nat) as -> by lia.
      injection Hchase as <- <-. vm_compute. reflexivity.
  - apply (proj2 (relock_ends_at_first_unlocked (stubborn 40000) no_options
                    (createHosts eth0) 1 (lock 40000 0 initial) 40000)).
    intros i Hi.
    assert (i = 0%nat ∨ i = 1%nat) as [-> | ->] by lia;
      eexists _, _; vm_compute; split; reflexivity.
Defined.

Lemma stubborn_await (options : Options) (hosts : list Host) (w : World) :
  ∃ w', await_verifyPort (stubborn 40000) (listen_options options 0) hosts w
        = (w', Resolved 40000)
        ∧ locked_has (manager w') 40000 = true.
Proof.
  unfold await_verifyPort, verifyPort. simpl l_port. simpl l_host.
  rewrite orb_true_r. eexists. split; [reflexivity|].
  cbn [manager foldl perform during stubborn lock set_manager set_locked locked fst snd].
  unfold locked_has. cbn [locked set_locked]. apply bool_decide_eq_true.
  rewrite lookup_insert_eq. eauto.
Qed.

Lemma stubborn_relock (options : Options) (hosts : list Host) (fuel : nat) :
  ∀ w, locked_has (manager w) 40000 = true →
       relock fuel (stubborn 40000) options hosts 0 w 40000 = OutOfFuel.
Proof.
  induction fuel as [|fuel IH]; intros w Hl.
  - simpl. rewrite Hl. reflexivity.
  - rewrite relock_locked_ephemeral by exact Hl.
    destruct (stubborn_await options hosts w) as (w' & -> & Hl').
    apply IH, Hl'.
Qed.

(** C5, as stated, fails: port 40000 is in the lock table, every
    ephemeral request is given 40000, and its holder renews the lock
    while the caller waits, after the sweep has run.  The candidate is
    0, the verified port is locked, and no budget of iterations lets the
    call end. *)
Lemma ephemeral_loop_diverges :
  (∃ w1, await_verifyPort (stubborn 40000) (listen_options no_options 0)
           (createHosts eth0) (arm (record Entered (lock 40000 0 initial)))
         = (w1, Resolved 40000)
         ∧ locked_has (manager w1) 40000 = true)
  ∧ ¬ terminates (stubborn 40000) no_options eth0 (lock 40000 0 initial).
Proof.
  split; [apply stubborn_await|].
  intros [fuel Hends]. apply Hends. clear Hends.
  unfold getOpenPort. simpl createPorts. change (new_Set [0]) with [0].
  rewrite scan_cons. unfold try_candidate.
  replace (Set_has (new_Set (default [] (exclude no_options))) 0
           || locked_has (manager (arm (record Entered (lock 40000 0 initial)))) 0)
    with false by (vm_compute; reflexivity).
  destruct (stubborn_await no_options (createHosts eth0)
              (arm (record Entered (lock 40000 0 initial)))) as (w1 & -> & Hl).
  rewrite stubborn_relock by exact Hl. reflexivity.
Qed.

(** * Further properties of the code *)

(** ** The lock table: sweep, clear, reservation *)

(** X1.  A sweep at [now] keeps exactly the entries younger than
    [cleanupInterval], with their timestamps, and touches neither the
    configuration nor the timer handle. *)
Theorem cleanupExpiredPorts_lookup (now : Z) (pm : PortManager) (p ts : Z) :
  (locked (cleanupExpiredPorts now pm) !! p = Some ts
   ↔ locked pm !! p = Some ts ∧ now - ts < cleanupInterval pm)
  ∧ cleanupInterval (cleanupExpiredPorts now pm) = cleanupInterval pm
  ∧ minPort (cleanupExpiredPorts now pm) = minPort pm
  ∧ maxPort (cleanupExpiredPorts now pm) = maxPort pm
  ∧ cleanupTimer (cleanupExpiredPorts now pm) = cleanupTimer pm.
Proof.
  split; [|repeat split; reflexivity].
  unfold cleanupExpiredPorts. cbn [locked set_locked].
  rewrite map_lookup_filter_Some. cbn [snd]. split.
  - intros [Hp Hyoung]. split; [exact Hp|lia].
  - intros [Hp Hyoung]. split; [exact Hp|lia].
Qed.

Lemma cleanupExpiredPorts_locked (now : Z) (pm : PortManager) (p ts : Z) :
  locked (cleanupExpiredPorts now pm) !! p = Some ts
  ↔ locked pm !! p = Some ts ∧ now - ts < cleanupInterval pm.
Proof.
  unfold cleanupExpiredPorts. cbn [locked set_locked].
  rewrite map_lookup_filter_Some. cbn [snd]. split.
  - intros [Hp Hyoung]. split; [exact Hp|lia].
  - intros [Hp Hyoung]. split; [exact Hp|lia].
Qed.

Lemma PortManager_eq (pm pm' : PortManager) :
  locked pm = locked pm' →
  cleanupInterval pm = cleanupInterval pm' →
  minPort pm = minPort pm' →
  maxPort pm = maxPort pm' →
  cleanupTimer pm = cleanupTimer pm' →
  pm = pm'.
Proof. destruct pm, pm'. simpl. intros -> -> -> -> ->. reflexivity. Qed.

(** X2.  Two sweeps in a row, in either order, leave what the later of
    the two instants alone leaves; in particular a sweep repeated at the
    same instant changes nothing more. *)
Theorem cleanupExpiredPorts_twice (a b : Z) (pm : PortManager) :
  cleanupExpiredPorts a (cleanupExpiredPorts b pm)
  = cleanupExpiredPorts (Z.max a b) pm.
Proof.
  apply PortManager_eq; try reflexivity.
  apply map_eq. intros p. apply option_eq. intros ts.
  rewrite !cleanupExpiredPorts_locked.
  change (cleanupInterval (cleanupExpiredPorts b pm)) with (cleanupInterval pm).
  split.
  - intros [[Hp Hb] Ha]. split; [exact Hp|lia].
  - intros [Hp Hmax]. split; [split; [exact Hp|]|]; lia.
Qed.

(** X3.  [clearLockedPorts] leaves an empty lock table and no timer,
    keeps the configuration, and calling it twice is the same as calling
    it once; the next [getOpenPort] arms a fresh, unreferenced timer,
    whose period is the configured interval when that lies between 1 and
    2^31 - 1 ms, and 1 ms otherwise. *)
Theorem clearLockedPorts_resets (w : World) :
  locked (manager (clearLockedPorts w)) = ∅
  ∧ cleanupTimer (manager (clearLockedPorts w)) = None
  ∧ cleanupInterval (manager (clearLockedPorts w)) = cleanupInterval (manager w)
  ∧ minPort (manager (clearLockedPorts w)) = minPort (manager w)
  ∧ maxPort (manager (clearLockedPorts w)) = maxPort (manager w)
  ∧ manager (clearLockedPorts (clearLockedPorts w)) = manager (clearLockedPorts w)
  ∧ (∃ t, cleanupTimer (manager (arm (record Entered (clearLockedPorts w)))) = Some t
          ∧ hasRef t = false
          ∧ (1 ≤ cleanupInterval (manager w) ≤ 2147483647 →
             period t = cleanupInterval (manager w))
          ∧ (cleanupInterval (manager w) < 1 ∨ 2147483647 < cleanupInterval (manager w) →
             period t = 1)).
Proof.
  assert (manager (clearLockedPorts w)
          = mkPortManager ∅ (cleanupInterval (manager w)) (minPort (manager w))
                          (maxPort (manager w)) None) as Hm.
  { unfold clearLockedPorts.
    destruct (cleanupTimer (manager w)) eqn:E; simpl; [reflexivity|].
    unfold set_locked. rewrite E. reflexivity. }
  repeat apply conj; try (rewrite Hm; reflexivity).
  - unfold clearLockedPorts at 1. rewrite Hm. reflexivity.
  - exists (mkTimeout (Node_timer_delay (cleanupInterval (manager w))) false).
    split; [unfold arm; cbn [record manager]; rewrite Hm; reflexivity|].
    split; [reflexivity|]. cbn [period]. unfold Node_timer_delay. split.
    + intros [Hlo Hhi].
      assert ((1 <=? cleanupInterval (manager w)) = true) as -> by lia.
      assert ((cleanupInterval (manager w) <=? 2147483647) = true) as -> by lia.
      reflexivity.
    + intros Hout.
      destruct ((1 <=? cleanupInterval (manager w))
                && (cleanupInterval (manager w) <=? 2147483647)) eqn:E;
        [|reflexivity].
      apply andb_true_iff in E as [? ?]. lia.
Qed.

Lemma clearLockedPorts_resets_witness :
  ∃ t, cleanupTimer (manager (arm (record Entered (clearLockedPorts (lock 3000 0 initial)))))
       = Some t
       ∧ hasRef t = false
       ∧ period t = 15000.
Proof.
  destruct (clearLockedPorts_resets (lock 3000 0 initial))
    as (_ & _ & _ & _ & _ & _ & t & Ht & Href & Hperiod & _).
  exists t. split; [exact Ht|]. split; [exact Href|].
  apply Hperiod. vm_compute. split; discriminate.
Defined.

Lemma lock_lookup (p ts q : Z) (w : World) :
  locked (manager (lock p ts w)) !! q
  = if decide (p = q) then Some ts else locked (manager w) !! q.
Proof. unfold lock. cbn [manager set_manager locked set_locked]. apply lookup_insert. Qed.

(** X4.  A port reserved at clock [t] stays in the lock table through
    every sweep before [t + cleanupInterval] and is removed by the first
    sweep from then on; when no timer is armed no sweep runs and the
    reservation stays. *)
Theorem reservation_lifetime (p now : Z) (w : World) :
  (now - clock w < cleanupInterval (manager w) →
   locked (manager (timerFires now (reserve p w))) !! p = Some (clock w))
  ∧ (cleanupInterval (manager w) ≤ now - clock w →
     is_Some (cleanupTimer (manager w)) →
     locked (manager (timerFires now (reserve p w))) !! p = None)
  ∧ (cleanupTimer (manager w) = None →
     locked (manager (timerFires now (reserve p w))) !! p = Some (clock w)).
Proof.
  assert (locked (manager (reserve p w)) !! p = Some (clock w)) as Hres.
  { unfold reserve. cbn [record manager]. rewrite lock_lookup.
    destruct (decide (p = p)); [reflexivity|congruence]. }
  assert (cleanupTimer (manager (reserve p w)) = cleanupTimer (manager w)) as Htimer
    by reflexivity.
  assert (cleanupInterval (manager (reserve p w)) = cleanupInterval (manager w))
    as Hint by reflexivity.
  unfold timerFires. rewrite Htimer.
  split; [|split].
  - intros Hyoung. destruct (cleanupTimer (manager w)); [|exact Hres].
    cbn [manager set_manager]. apply cleanupExpiredPorts_locked.
    split; [exact Hres|]. rewrite Hint. exact Hyoung.
  - intros Hold [t Ht]. rewrite Ht. cbn [manager set_manager].
    destruct (locked (cleanupExpiredPorts now (manager (reserve p w))) !! p)
      as [ts|] eqn:E; [|reflexivity].
    apply cleanupExpiredPorts_locked in E as [E Hyoung].
    rewrite Hres in E. injection E as <-. rewrite Hint in Hyoung. lia.
  - intros ->. exact Hres.
Qed.

Lemma reservation_lifetime_witness :
  locked (manager (timerFires 14999 (reserve 3000 (arm initial)))) !! 3000 = Some 0
  ∧ locked (manager (timerFires 15000 (reserve 3000 (arm initial)))) !! 3000 = None
  ∧ locked (manager (timerFires 15000 (reserve 3000 initial))) !! 3000 = Some 0.
Proof.
  split; [|split].
  - apply (proj1 (reservation_lifetime 3000 14999 (arm initial))).
    vm_compute. reflexivity.
  - apply (proj1 (proj2 (reservation_lifetime 3000 15000 (arm initial)))).
    + vm_compute. discriminate.
    + vm_compute. eauto.
  - apply (proj2 (proj2 (reservation_lifetime 3000 15000 initial))).
    reflexivity.
Defined.

(** ** Sets in insertion order: candidates and hosts *)

Lemma elem_of_Set_add {A} `{EqDecision A} (x y : A) (s : list A) :
  y ∈ Set_add x s ↔ y = x ∨ y ∈ s.
Proof.
  unfold Set_add. destruct (decide (x ∈ s)) as [Hin|Hout].
  - split; [auto|]. intros [->|Hy]; assumption.
  - rewrite elem_of_app, list_elem_of_singleton. tauto.
Qed.

Lemma NoDup_Set_add {A} `{EqDecision A} (x : A) (s : list A) :
  NoDup s → NoDup (Set_add x s).
Proof.
  intros Hs. unfold Set_add. destruct (decide (x ∈ s)) as [Hin|Hout]; [exact Hs|].
  apply NoDup_app. split; [exact Hs|]. split; [|apply NoDup_singleton].
  intros y Hy Hy'. apply list_elem_of_singleton in Hy'. subst. contradiction.
Qed.

Lemma foldl_Set_add_elem {A} `{EqDecision A} (l : list A) :
  ∀ (acc : list A) (y : A),
    y ∈ foldl (λ s x, Set_add x s) acc l ↔ y ∈ acc ∨ y ∈ l.
Proof.
  induction l as [|x l IH]; intros acc y; simpl.
  - rewrite elem_of_nil. tauto.
  - rewrite IH, elem_of_Set_add, elem_of_cons. tauto.
Qed.

Lemma foldl_Set_add_NoDup {A} `{EqDecision A} (l : list A) :
  ∀ acc : list A, NoDup acc → NoDup (foldl (λ s x, Set_add x s) acc l).
Proof.
  induction l as [|x l IH]; intros acc Hacc; simpl; [exact Hacc|].
  apply IH, NoDup_Set_add, Hacc.
Qed.

(** Adding to a set never disturbs what it already holds: the elements
    present come first, in their order. *)
Lemma foldl_Set_add_first_seen {A} `{EqDecision A} (n : nat) :
  ∀ (l acc : list A),
    (length l ≤ n)%nat →
    foldl (λ s x, Set_add x s) acc l
    = acc ++ new_Set (filter (λ y, y ∉ acc) l).
Proof.
  induction n as [|n IH]; intros l acc Hn.
  { destruct l; [|simpl in Hn; lia]. simpl. rewrite app_nil_r. reflexivity. }
  destruct l as [|x l]; [simpl; rewrite app_nil_r; reflexivity|].
  simpl in Hn. cbn [foldl]. unfold Set_add at 2.
  destruct (decide (x ∈ acc)) as [Hin|Hout].
  - rewrite filter_cons_False by tauto. apply IH. lia.
  - rewrite filter_cons_True by exact Hout.
    rewrite (IH l (acc ++ [x])) by lia.
    unfold new_Set at 2. cbn [foldl]. change (Set_add x []) with [x].
    rewrite (IH (filter (λ y, y ∉ acc) l) [x])
      by (etrans; [apply length_filter|lia]).
    rewrite <- app_assoc. do 2 f_equal.
    rewrite list_filter_filter. f_equal. apply list_filter_iff.
    intros y. rewrite elem_of_app, list_elem_of_singleton. tauto.
Qed.

Lemma new_Set_cons {A} `{EqDecision A} (x : A) (l : list A) :
  new_Set (x :: l) = x :: new_Set (filter (λ y, y ≠ x) l).
Proof.
  unfold new_Set at 1. cbn [foldl]. change (Set_add x []) with [x].
  rewrite (foldl_Set_add_first_seen (length l)) by lia.
  simpl. do 2 f_equal. apply list_filter_iff.
  intros y. rewrite list_elem_of_singleton. tauto.
Qed.

Lemma filter_all {A} (P : A → Prop) `{∀ x, Decision (P x)} (l : list A) :
  Forall P l → filter P l = l.
Proof.
  induction 1 as [|x l Hx _ IH]; [reflexivity|].
  rewrite filter_cons_True by exact Hx. f_equal. exact IH.
Qed.

Lemma new_Set_NoDup_id {A} `{EqDecision A} (l : list A) :
  NoDup l → new_Set l = l.
Proof.
  induction 1 as [|x l Hx Hl IH]; [reflexivity|].
  rewrite new_Set_cons. f_equal.
  rewrite <- IH at 2. f_equal.
  apply filter_all. apply Forall_forall. intros y Hy ->. contradiction.
Qed.

(** X5.  The candidate list [createPorts] builds is [[0]] when no ports
    are given; otherwise it holds the given ports in the order in which
    each is first seen, later repetitions dropped: it has no duplicates
    and the same members as the input, and an empty input stays empty. *)
Theorem createPorts_first_seen (ports : list Z) (x : Z) :
  createPorts None = [0]
  ∧ createPorts (Some []) = []
  ∧ createPorts (Some (x :: ports))
    = x :: createPorts (Some (filter (λ y, y ≠ x) ports))
  ∧ NoDup (createPorts (Some ports))
  ∧ (∀ y, y ∈ createPorts (Some ports) ↔ y ∈ ports).
Proof.
  split; [reflexivity|]. split; [reflexivity|].
  split; [apply new_Set_cons|]. split.
  - apply foldl_Set_add_NoDup. constructor.
  - intros y. unfold createPorts, new_Set. rewrite foldl_Set_add_elem.
    rewrite elem_of_nil. tauto.
Qed.

(** X6.  For [port: ports] the candidates [getOpenPort] iterates over
    are [ports] deduplicated once: the second deduplication inside
    [createPorts] changes nothing, and a list without repetitions is
    taken as it is. *)
Theorem candidates_of_array (ports : list Z) :
  createPorts (Some (new_Set ports)) = new_Set ports
  ∧ (NoDup ports → createPorts (Some (new_Set ports)) = ports).
Proof.
  assert (NoDup (new_Set ports)) as Hnd
    by (apply foldl_Set_add_NoDup; constructor).
  split.
  - apply new_Set_NoDup_id, Hnd.
  - intros Hports. unfold createPorts.
    rewrite (new_Set_NoDup_id ports Hports). apply new_Set_NoDup_id, Hports.
Qed.

Lemma candidates_of_array_witness :
  createPorts (Some (new_Set [3000; 4000; 3000; 5000; 4000])) = [3000; 4000; 5000]
  ∧ createPorts (Some (new_Set [3000; 4000])) = [3000; 4000].
Proof.
  split.
  - rewrite (proj1 (candidates_of_array [3000; 4000; 3000; 5000; 4000])).
    reflexivity.
  - apply (proj2 (candidates_of_array [3000; 4000])).
    apply (bool_decide_unpack (NoDup [3000; 4000])). vm_compute. exact I.
Defined.

Lemma hosts_of_configs (configs : list InterfaceInfo) :
  ∀ acc : list Host,
    let hosts :=
      foldl (λ acc config,
               if internal config then acc
               else Set_add (Some (address config)) acc) acc configs in
    (∀ h, h ∈ hosts
          ↔ h ∈ acc ∨ ∃ config, config ∈ configs ∧ internal config = false
                                 ∧ h = Some (address config))
    ∧ (NoDup acc → NoDup hosts)
    ∧ ∃ rest, hosts = acc ++ rest.
Proof.
  unfold Host. induction configs as [|c configs IH]; intros acc; cbv zeta; cbn [foldl].
  - split; [|split; [auto|exists []; rewrite app_nil_r; reflexivity]].
    intros h. split; [auto|]. intros [Hh|(config & Hc & _)]; [exact Hh|].
    inversion Hc.
  - pose proof (IH (if internal c then acc else Set_add (Some (address c)) acc))
      as HIH.
    cbv zeta in HIH. destruct HIH as (Hmem & Hnd & rest & Hrest).
    split; [|split].
    + intros h. rewrite Hmem. destruct (internal c) eqn:Hint.
      * split.
        -- intros [Hh|(config & Hc & Hext & ->)]; [auto|].
           right. exists config. split; [right; exact Hc|auto].
        -- intros [Hh|(config & Hc & Hext & ->)]; [auto|].
           apply elem_of_cons in Hc as [->|Hc]; [congruence|].
           right. exists config. auto.
      * rewrite elem_of_Set_add. split.
        -- intros [[->|Hh]|(config & Hc & Hext & ->)]; [|auto|].
           ++ right. exists c. split; [left|auto].
           ++ right. exists config. split; [right; exact Hc|auto].
        -- intros [Hh|(config & Hc & Hext & ->)]; [auto|].
           apply elem_of_cons in Hc as [->|Hc]; [auto|].
           right. exists config. auto.
    + intros Hacc. apply Hnd. destruct (internal c); [exact Hacc|].
      apply NoDup_Set_add, Hacc.
    + rewrite Hrest. destruct (internal c); [eauto|].
      unfold Set_add. destruct (decide (Some (address c) ∈ acc)); [eauto|].
      rewrite <- app_assoc. eauto.
Qed.

Lemma hosts_of_interfaces (interfaces : list (option (list InterfaceInfo))) :
  ∀ acc : list Host,
    let hosts :=
      foldl
        (λ acc iface,
           match iface with
           | Some configs =>
               foldl (λ acc config,
                        if internal config then acc
                        else Set_add (Some (address config)) acc)
                     acc configs
           | None => acc
           end) acc interfaces in
    (∀ h, h ∈ hosts
          ↔ h ∈ acc ∨ ∃ configs config,
                        Some configs ∈ interfaces ∧ config ∈ configs
                        ∧ internal config = false ∧ h = Some (address config))
    ∧ (NoDup acc → NoDup hosts)
    ∧ ∃ rest, hosts = acc ++ rest.
Proof.
  unfold Host. induction interfaces as [|iface interfaces IH]; intros acc; cbv zeta; cbn [foldl].
  - split; [|split; [auto|exists []; rewrite app_nil_r; reflexivity]].
    intros h. split; [auto|]. intros [Hh|(configs & config & Hc & _)]; [exact Hh|].
    inversion Hc.
  - destruct iface as [configs0|].
    + pose proof (hosts_of_configs configs0 acc) as H0.
      unfold Host in H0. cbv zeta in H0. destruct H0 as (Hmem0 & Hnd0 & rest0 & Hrest0).
      match goal with
      | |- context [foldl _ (foldl ?f acc configs0) interfaces] =>
          pose proof (IH (foldl f acc configs0)) as HIH
      end.
      cbv zeta in HIH. destruct HIH as (Hmem & Hnd & rest & Hrest).
      split; [|split].
      * intros h. rewrite Hmem, Hmem0. split.
        -- intros [[Hh|(config & Hc & Hext & ->)]|(configs & config & Hi & Hc & Hext & ->)].
           ++ auto.
           ++ right. exists configs0, config. split; [left|auto].
           ++ right. exists configs, config. split; [right; exact Hi|auto].
        -- intros [Hh|(configs & config & Hi & Hc & Hext & ->)]; [auto|].
           apply elem_of_cons in Hi as [[= ->]|Hi].
           ++ left. right. exists config. auto.
           ++ right. exists configs, config. auto.
      * intros Hacc. apply Hnd, Hnd0, Hacc.
      * rewrite Hrest, Hrest0, <- app_assoc. eauto.
    + pose proof (IH acc) as HIH.
      cbv zeta in HIH. destruct HIH as (Hmem & Hnd & rest & Hrest).
      split; [|split; [exact Hnd|eauto]].
      intros h. rewrite Hmem. split.
      * intros [Hh|(configs & config & Hi & Hc & Hext & ->)]; [auto|].
        right. exists configs, config. split; [right; exact Hi|auto].
      * intros [Hh|(configs & config & Hi & Hc & Hext & ->)]; [auto|].
        apply elem_of_cons in Hi as [Hi|Hi]; [discriminate Hi|].
        right. exists configs, config. auto.
Qed.

(** X7.  The host set holds [undefined], the wildcard ["0.0.0.0"] and
    the address of every interface entry that is not internal, and
    nothing else: an internal address (a loopback) is never probed unless
    it is the wildcard itself. *)
Theorem createHosts_members (interfaces : list (option (list InterfaceInfo)))
    (h : Host) :
  h ∈ createHosts interfaces
  ↔ h = None ∨ h = Some "0.0.0.0"
    ∨ ∃ configs config,
        Some configs ∈ interfaces ∧ config ∈ configs
        ∧ internal config = false ∧ h = Some (address config).
Proof.
  unfold createHosts.
  pose proof (hosts_of_interfaces interfaces (new_Set [None; Some "0.0.0.0"])) as H.
  unfold Host in *. cbv zeta in H. destruct H as (Hmem & _ & _). rewrite Hmem.
  change (new_Set [None; Some "0.0.0.0"]) with [None; Some "0.0.0.0"].
  rewrite !elem_of_cons, elem_of_nil. tauto.
Qed.

(** X8.  The host set never repeats an address, and [undefined] and the
    wildcard come first, in that order, so they are the first two hosts
    of every fan-out; on a machine whose interfaces are all internal
    they are the only ones. *)
Theorem createHosts_defaults_first (interfaces : list (option (list InterfaceInfo))) :
  NoDup (createHosts interfaces)
  ∧ (∃ rest, createHosts interfaces = None :: Some "0.0.0.0" :: rest)
  ∧ ((∀ configs config, Some configs ∈ interfaces → config ∈ configs →
                        internal config = true) →
     createHosts interfaces = [None; Some "0.0.0.0"]).
Proof.
  unfold createHosts.
  pose proof (hosts_of_interfaces interfaces (new_Set [None; Some "0.0.0.0"])) as H.
  unfold Host in *. cbv zeta in H. destruct H as (Hmem & Hnd & rest & Hrest).
  change (new_Set [None; Some "0.0.0.0"]) with [None; Some "0.0.0.0"] in *.
  assert (NoDup [None; Some "0.0.0.0"]) as Hdefaults.
  { apply (bool_decide_unpack (NoDup [None; Some "0.0.0.0"])). vm_compute. exact I. }
  pose proof (Hnd Hdefaults) as Hnodup.
  split; [exact Hnodup|]. split; [exists rest; exact Hrest|].
  intros Hinternal. rewrite Hrest. destruct rest as [|h rest]; [reflexivity|].
  exfalso.
  assert (h ∈ [None; Some "0.0.0.0"] ++ h :: rest) as Hin
    by (apply elem_of_app; right; left).
  rewrite <- Hrest in Hin. apply Hmem in Hin as [Hin|(configs & config & Hi & Hc & Hext & _)].
  - rewrite Hrest in Hnodup. apply NoDup_app in Hnodup as (_ & Hdisj & _).
    apply (Hdisj h Hin). left.
  - rewrite (Hinternal configs config Hi Hc) in Hext. discriminate Hext.
Qed.

Lemma createHosts_defaults_first_witness :
  createHosts [Some [mkInterfaceInfo "127.0.0.1" true]; None] = [None; Some "0.0.0.0"].
Proof.
  apply (proj2 (proj2 (createHosts_defaults_first
                         [Some [mkInterfaceInfo "127.0.0.1" true]; None]))).
  intros configs config Hi Hc.
  apply elem_of_cons in Hi as [[= ->]|Hi].
  - apply list_elem_of_singleton in Hc as ->. reflexivity.
  - apply list_elem_of_singleton in Hi. discriminate Hi.
Defined.

(** ** The range helper, beyond its contract *)

Lemma getPortRange_Normal_inv (pm : PortManager) (from to : JsVal) (l : list Z) :
  getPortRange pm from to = Normal l →
  ∃ a b, from = VInt a ∧ to = VInt b
         ∧ minPort pm ≤ a ∧ a ≤ b ∧ b ≤ maxPort pm
         ∧ l = seqZ a (b - a + 1).
Proof.
  unfold getPortRange.
  destruct from as [| | | | |a|]; try discriminate;
    destruct to as [| | | | |b|]; try discriminate.
  cbn [Number_isInteger integer_of negb orb].
  destruct ((a <? minPort pm) || (maxPort pm <? a)) eqn:Ha; [discriminate|].
  destruct ((b <? minPort pm) || (maxPort pm <? b)) eqn:Hb; [discriminate|].
  destruct (b <? a) eqn:Hba; [discriminate|].
  intros [= <-]. apply orb_false_elim in Ha as [? ?], Hb as [? ?].
  exists a, b. repeat split; try lia. apply Array_from_length_seqZ.
Qed.

Lemma getPortRange_valid (pm : PortManager) (a b : Z) :
  minPort pm ≤ a → a ≤ b → b ≤ maxPort pm →
  getPortRange pm (VInt a) (VInt b) = Normal (seqZ a (b - a + 1)).
Proof.
  intros Hlo Hab Hhi. unfold getPortRange.
  cbn [Number_isInteger integer_of negb orb].
  assert ((a <? minPort pm) = false) as -> by lia.
  assert ((maxPort pm <? a) = false) as -> by lia.
  assert ((b <? minPort pm) = false) as -> by lia.
  assert ((maxPort pm <? b) = false) as -> by lia.
  assert ((b <? a) = false) as -> by lia.
  cbn [orb]. rewrite Array_from_length_seqZ. reflexivity.
Qed.

(** X9.  [getPortRange] returns a list only for two integers with
    [minPort <= from <= to <= maxPort], and then that list is
    [from, ..., to]: no other pair of arguments yields a result, and the
    result is never empty. *)
Theorem getPortRange_succeeds_iff (pm : PortManager) (from to : JsVal) (l : list Z) :
  (getPortRange pm from to = Normal l
   ↔ ∃ a b, from = VInt a ∧ to = VInt b
            ∧ minPort pm ≤ a ∧ a ≤ b ∧ b ≤ maxPort pm
            ∧ l = seqZ a (b - a + 1))
  ∧ getPortRange pm from to ≠ Normal [].
Proof.
  split.
  - split; [apply getPortRange_Normal_inv|].
    intros (a & b & -> & -> & Hlo & Hab & Hhi & ->).
    apply getPortRange_valid; assumption.
  - intros Hempty.
    apply getPortRange_Normal_inv in Hempty
      as (a & b & _ & _ & _ & Hab & _ & Hl).
    apply (f_equal length) in Hl. rewrite length_seqZ in Hl. simpl in Hl. lia.
Qed.

(** X10.  A returned range holds exactly the integers between [from] and
    [to], each once, all of them within [minPort] and [maxPort]; it
    starts with [from] and ends with [to]. *)
Theorem getPortRange_contents (pm : PortManager) (from to : JsVal) (l : list Z) :
  getPortRange pm from to = Normal l →
  (∀ x, x ∈ l ↔ integer_of from ≤ x ≤ integer_of to)
  ∧ NoDup l
  ∧ (∀ x, x ∈ l → minPort pm ≤ x ≤ maxPort pm)
  ∧ head l = Some (integer_of from)
  ∧ last l = Some (integer_of to).
Proof.
  intros Hrange.
  apply getPortRange_Normal_inv in Hrange
    as (a & b & -> & -> & Hlo & Hab & Hhi & ->).
  cbn [integer_of].
  assert (∀ x, x ∈ seqZ a (b - a + 1) ↔ a ≤ x ≤ b) as Hmem
    by (intros x; rewrite elem_of_seqZ; lia).
  split; [exact Hmem|]. split; [apply NoDup_seqZ|].
  split; [intros x Hx; apply Hmem in Hx; lia|]. split.
  - rewrite seqZ_cons by lia. reflexivity.
  - rewrite last_lookup, length_seqZ.
    rewrite lookup_seqZ_lt by lia. f_equal. lia.
Qed.

Lemma getPortRange_contents_witness :
  (∀ x, x ∈ [3000; 3001; 3002] ↔ 3000 ≤ x ≤ 3002)
  ∧ NoDup [3000; 3001; 3002]
  ∧ (∀ x, x ∈ [3000; 3001; 3002] → 1024 ≤ x ≤ 65535)
  ∧ head [3000; 3001; 3002] = Some 3000
  ∧ last [3000; 3001; 3002] = Some 3002.
Proof.
  apply (getPortRange_contents portManager (VInt 3000) (VInt 3002)).
  reflexivity.
Defined.

(** X11.  Two ranges that meet, the second starting one past the end of
    the first, concatenate to the range over both. *)
Theorem getPortRange_adjacent (pm : PortManager) (a b c : Z) (l1 l2 : list Z) :
  getPortRange pm (VInt a) (VInt b) = Normal l1 →
  getPortRange pm (VInt (b + 1)) (VInt c) = Normal l2 →
  getPortRange pm (VInt a) (VInt c) = Normal (l1 ++ l2).
Proof.
  intros H1 H2.
  apply getPortRange_Normal_inv in H1
    as (a' & b' & [= <-] & [= <-] & Hlo1 & Hab & Hhi1 & ->).
  apply getPortRange_Normal_inv in H2
    as (b' & c' & [= <-] & [= <-] & Hlo2 & Hbc & Hhi2 & ->).
  rewrite getPortRange_valid by lia. f_equal.
  replace (c - a + 1) with ((b - a + 1) + (c - (b + 1) + 1)) by lia.
  rewrite seqZ_app by lia. do 2 f_equal. lia.
Qed.

Lemma getPortRange_adjacent_witness :
  getPortRange portManager (VInt 3000) (VInt 3003)
  = Normal ([3000; 3001] ++ [3002; 3003]).
Proof.
  apply (getPortRange_adjacent portManager 3000 3001 3003); reflexivity.
Defined.

(** ** The fan-out, beyond the order of its results *)

Lemma verifyPort_fanout (options : ListenOptions) (hosts : list Host) (rd : Round) :
  host_given (l_host options) = false →
  l_port options ≠ 0 →
  verifyPort options hosts rd
  = (map (λ h, with_host h options) hosts,
     match Promise_all (map (λ h, (settledAt rd h, probe_host options rd h)) hosts) with
     | Resolved results =>
         match find_number results with
         | Some validPort =>
             if validPort =? 0 then Rejected (not_available (l_port options) hosts)
             else Resolved validPort
         | None => Rejected (not_available (l_port options) hosts)
         end
     | Rejected e => Rejected e
     | Pending => Pending
     end).
Proof.
  intros Hhost Hport. unfold verifyPort. rewrite Hhost.
  assert ((l_port options =? 0) = false) as -> by lia. reflexivity.
Qed.

Lemma probe_host_accepted (options : ListenOptions) (rd : Round) (h : Host) (p : Z) :
  probe_host options rd h = Resolved (Some p)
  ↔ server rd h (l_port options) = Listening (AddrInfo p).
Proof.
  unfold probe_host, checkPortAvailability.
  destruct (server rd h (l_port options)) as [[| |q]|e|]; simpl;
    try (split; discriminate).
  - split; intros [= ->]; reflexivity.
  - destruct (negb (code_is e "EADDRNOTAVAIL" || code_is e "EINVAL"));
      split; discriminate.
Qed.

Lemma probe_host_swallowed (options : ListenOptions) (rd : Round) (h : Host) :
  probe_host options rd h = Resolved None
  ↔ ∃ e, server rd h (l_port options) = ErrorEvent e
         ∧ (code_is e "EADDRNOTAVAIL" || code_is e "EINVAL") = true.
Proof.
  unfold probe_host, checkPortAvailability.
  destruct (server rd h (l_port options)) as [[| |q]|e|]; simpl;
    try (split; [discriminate|intros (e' & H & _); discriminate H]).
  destruct (code_is e "EADDRNOTAVAIL" || code_is e "EINVAL") eqn:Hs; simpl.
  - split; [eauto|reflexivity].
  - split; [discriminate|]. intros (e' & [= <-] & H). congruence.
Qed.

Lemma probe_host_rejected (options : ListenOptions) (rd : Round) (h : Host)
    (e : JsError) :
  probe_host options rd h = Rejected e
  ↔ checkPortAvailability (with_host h options) (server rd h (l_port options))
    = Rejected e
    ∧ (code_is e "EADDRNOTAVAIL" || code_is e "EINVAL") = false.
Proof.
  unfold probe_host.
  destruct (checkPortAvailability (with_host h options) (server rd h (l_port options)))
    as [q|e'|]; try (split; [discriminate|intros [H _]; discriminate H]).
  destruct (code_is e' "EADDRNOTAVAIL" || code_is e' "EINVAL") eqn:Hs; simpl.
  - split; [discriminate|]. intros [[= <-] H]. congruence.
  - split; [intros [= <-]; auto|]. intros [[= <-] _]. reflexivity.
Qed.

Lemma first_rejection_earliest {A} (ps : list (Z * Promise A)) :
  ∀ t e, first_rejection ps = Some (t, e) →
         (t, Rejected e) ∈ ps
         ∧ ∀ t' e', (t', Rejected e') ∈ ps → t ≤ t'.
Proof.
  induction ps as [|[t0 p] ps IH]; intros t e; simpl; [discriminate|].
  destruct p as [v|e0|].
  - intros H. destruct (IH t e H) as [Hin Hmin]. split; [right; exact Hin|].
    intros t' e' Hin'. apply elem_of_cons in Hin' as [[=]|Hin'].
    eapply Hmin, Hin'.
  - destruct (first_rejection ps) as [[t1 e1]|] eqn:Hrest.
    + destruct (IH t1 e1 eq_refl) as [Hin Hmin].
      destruct (t1 <? t0) eqn:Hlt; intros [= <- <-].
      * split; [right; exact Hin|].
        intros t' e' Hin'. apply elem_of_cons in Hin' as [[= -> _]|Hin']; [lia|].
        eapply Hmin, Hin'.
      * split; [left|].
        intros t' e' Hin'. apply elem_of_cons in Hin' as [[= -> _]|Hin']; [lia|].
        specialize (Hmin t' e' Hin'). lia.
    + intros [= <- <-]. split; [left|].
      intros t' e' Hin'. apply elem_of_cons in Hin' as [[= -> _]|Hin']; [lia|].
      exfalso. clear IH. induction ps as [|[t2 p2] ps IH2]; [inversion Hin'|].
      simpl in Hrest. apply elem_of_cons in Hin' as [[= <- <-]|Hin'].
      * destruct (first_rejection ps) as [[? ?]|]; [destruct (_ <? _)|];
          discriminate Hrest.
      * destruct p2 as [v2|e2|]; [apply IH2; assumption| |apply IH2; assumption].
        destruct (first_rejection ps) as [[? ?]|]; [destruct (_ <? _)|];
          discriminate Hrest.
  - intros H. destruct (IH t e H) as [Hin Hmin]. split; [right; exact Hin|].
    intros t' e' Hin'. apply elem_of_cons in Hin' as [[=]|Hin'].
    eapply Hmin, Hin'.
Qed.

Lemma first_rejection_exists {A} (ps : list (Z * Promise A)) (t : Z) (e : JsError) :
  (t, Rejected e) ∈ ps → is_Some (first_rejection ps).
Proof.
  induction ps as [|[t0 p] ps IH]; intros Hin; [inversion Hin|].
  simpl. apply elem_of_cons in Hin as [[= <- <-]|Hin].
  - destruct (first_rejection ps) as [[t1 e1]|]; [destruct (t1 <? t)|]; eauto.
  - destruct (IH Hin) as [[t1 e1] Hrest]. rewrite Hrest.
    destruct p as [v|e0|]; [eauto| |eauto].
    destruct (t1 <? t0); eauto.
Qed.

Lemma verifyPort_all_accept (options : ListenOptions) (hosts : list Host)
    (rd : Round) :
  host_given (l_host options) = false →
  l_port options ≠ 0 →
  hosts ≠ [] →
  (∀ h, h ∈ hosts →
        server rd h (l_port options) = Listening (AddrInfo (l_port options))) →
  (verifyPort options hosts rd).2 = Resolved (l_port options).
Proof.
  intros Hhost Hport Hne Haccept. rewrite verifyPort_fanout by assumption. cbn [snd].
  assert (Forall2 (λ h v, probe_host options rd h = Resolved v) hosts
                  (map (λ _, Some (l_port options)) hosts)) as Hres.
  { clear Hne. induction hosts as [|h hosts IH]; [constructor|].
    constructor.
    - apply probe_host_accepted, Haccept. left.
    - apply IH. intros h' Hh'. apply Haccept. right. exact Hh'. }
  apply (Promise_all_resolved (settledAt rd) (probe_host options rd)) in Hres.
  rewrite Hres.
  destruct hosts as [|h hosts]; [congruence|]. cbn [map find_number].
  assert ((l_port options =? 0) = false) as -> by lia. reflexivity.
Qed.

Lemma verifyPort_all_refused (options : ListenOptions) (hosts : list Host)
    (rd : Round) :
  host_given (l_host options) = false →
  l_port options ≠ 0 →
  (∀ h, h ∈ hosts →
        ∃ e, server rd h (l_port options) = ErrorEvent e
             ∧ (code_is e "EADDRNOTAVAIL" || code_is e "EINVAL") = true) →
  (verifyPort options hosts rd).2 = Rejected (not_available (l_port options) hosts).
Proof.
  intros Hhost Hport Hrefused.
  rewrite verifyPort_fanout by assumption. cbn [snd].
  assert (Forall2 (λ h v, probe_host options rd h = Resolved v) hosts
                  (map (λ _, None) hosts)) as Hres.
  { induction hosts as [|h hosts IH]; [constructor|].
    constructor.
    - apply probe_host_swallowed, Hrefused. left.
    - apply IH. intros h' Hh'. apply Hrefused. right. exact Hh'. }
  apply (Promise_all_resolved (settledAt rd) (probe_host options rd)) in Hres.
  rewrite Hres.
  assert (find_number (map (λ _ : Host, None) hosts) = None) as ->
    by (clear; induction hosts; [reflexivity|assumption]).
  reflexivity.
Qed.

(** X12.  On a system that binds the port it is asked for, the fan-out
    resolves to no other port than the requested one; and when every
    host of a non-empty host set accepts the bind, it does resolve to
    it. *)
Theorem fanout_resolves_requested (options : ListenOptions) (hosts : list Host)
    (rd : Round) :
  host_given (l_host options) = false →
  l_port options ≠ 0 →
  (∀ p, (∀ h q, h ∈ hosts →
                server rd h (l_port options) = Listening (AddrInfo q) →
                q = l_port options) →
        (verifyPort options hosts rd).2 = Resolved p →
        p = l_port options)
  ∧ (hosts ≠ [] →
     (∀ h, h ∈ hosts →
           server rd h (l_port options) = Listening (AddrInfo (l_port options))) →
     (verifyPort options hosts rd).2 = Resolved (l_port options)).
Proof.
  intros Hhost Hport. rewrite verifyPort_fanout by assumption. cbn [snd].
  pose proof (Promise_all_resolved (settledAt rd) (probe_host options rd) hosts)
    as Hall.
  split.
  - intros p Hfaithful.
    destruct (Promise_all (map (λ h, (settledAt rd h, probe_host options rd h)) hosts))
      as [results|e|]; try discriminate.
    pose proof (proj1 (Hall results) eq_refl) as Hres.
    destruct (find_number results) as [validPort|] eqn:Hv; [|discriminate].
    destruct (validPort =? 0); [discriminate|]. intros [= ->].
    apply (find_number_first _ _ _ _ Hres) in Hv
      as (pre & h & post & -> & Hh & _).
    apply probe_host_accepted in Hh.
    apply (Hfaithful h p); [|exact Hh].
    apply elem_of_app. right. left.
  - intros Hne Haccept.
    pose proof (verifyPort_all_accept options hosts rd Hhost Hport Hne Haccept)
      as Hok.
    rewrite verifyPort_fanout in Hok by assumption. exact Hok.
Qed.

Lemma fanout_resolves_requested_witness :
  (verifyPort (mkListen 3000 None VUndefined) (createHosts eth0) (calm 40000 0)).2
  = Resolved 3000.
Proof.
  apply (proj2 (fanout_resolves_requested (mkListen 3000 None VUndefined)
                  (createHosts eth0) (calm 40000 0) eq_refl ltac:(simpl; lia))).
  - vm_compute. discriminate.
  - intros h _. reflexivity.
Defined.

(** X13.  When every host refuses the bind with "address not available"
    or "invalid argument", the fan-out swallows each refusal and rejects
    with its own error, which names the port and the hosts tried; it has
    no [code], and is not a [LockedPortError]. *)
Theorem fanout_all_refused (options : ListenOptions) (hosts : list Host) (rd : Round) :
  host_given (l_host options) = false →
  l_port options ≠ 0 →
  (∀ h, h ∈ hosts →
        ∃ e, server rd h (l_port options) = ErrorEvent e
             ∧ (code_is e "EADDRNOTAVAIL" || code_is e "EINVAL") = true) →
  (verifyPort options hosts rd).2 = Rejected (not_available (l_port options) hosts)
  ∧ prop (not_available (l_port options) hosts) "code" = VUndefined
  ∧ instanceof_LockedPortError (not_available (l_port options) hosts) = false.
Proof.
  intros Hhost Hport Hrefused. split; [|split; reflexivity].
  apply verifyPort_all_refused; assumption.
Qed.

(** A port that no interface can bind. *)
Example not_available_message :
  not_available 3000 (createHosts eth0)
  = new_Error "Port 3000 is not available on any of the network interfaces: , 0.0.0.0, 192.168.1.1".
Proof. vm_compute. reflexivity. Qed.

(** X14.  When the fan-out rejects, the error is either its own "not
    available on any interface" error or the error of one of the probes,
    one that is not "address not available" or "invalid argument" and
    that settled no later than any other failing probe. *)
Theorem fanout_rejection (options : ListenOptions) (hosts : list Host) (rd : Round)
    (e : JsError) :
  host_given (l_host options) = false →
  l_port options ≠ 0 →
  (verifyPort options hosts rd).2 = Rejected e →
  e = not_available (l_port options) hosts
  ∨ ∃ h, h ∈ hosts
         ∧ checkPortAvailability (with_host h options) (server rd h (l_port options))
           = Rejected e
         ∧ (code_is e "EADDRNOTAVAIL" || code_is e "EINVAL") = false
         ∧ ∀ h' e', h' ∈ hosts → probe_host options rd h' = Rejected e' →
                    settledAt rd h ≤ settledAt rd h'.
Proof.
  intros Hhost Hport. rewrite verifyPort_fanout by assumption. cbn [snd].
  unfold Promise_all.
  destruct (first_rejection (map (λ h, (settledAt rd h, probe_host options rd h)) hosts))
    as [[t e0]|] eqn:Hfirst.
  - intros [= <-]. right.
    apply first_rejection_earliest in Hfirst as [Hin Hmin].
    apply list_elem_of_fmap in Hin as (h & [= -> Hh] & Hin).
    symmetry in Hh. apply probe_host_rejected in Hh as [Hprobe Hcode].
    exists h. split; [exact Hin|]. split; [exact Hprobe|]. split; [exact Hcode|].
    intros h' e' Hin' Hrej. apply (Hmin _ e').
    apply list_elem_of_fmap. exists h'. split; [|exact Hin'].
    rewrite Hrej. reflexivity.
  - destruct (all_values (map (λ h, (settledAt rd h, probe_host options rd h)) hosts))
      as [results|]; [|discriminate].
    destruct (find_number results) as [validPort|].
    + destruct (validPort =? 0); [|discriminate]. intros [= <-]. left. reflexivity.
    + intros [= <-]. left. reflexivity.
Qed.

Lemma fanout_rejection_witness :
  system_error "EADDRINUSE" = not_available 3000 (createHosts eth0)
  ∨ ∃ h, h ∈ createHosts eth0
         ∧ checkPortAvailability (with_host h (mkListen 3000 None VUndefined))
             (server taken_elsewhere h 3000)
           = Rejected (system_error "EADDRINUSE")
         ∧ (code_is (system_error "EADDRINUSE") "EADDRNOTAVAIL"
            || code_is (system_error "EADDRINUSE") "EINVAL") = false
         ∧ ∀ h' e', h' ∈ createHosts eth0 →
                    probe_host (mkListen 3000 None VUndefined) taken_elsewhere h'
                    = Rejected e' →
                    settledAt taken_elsewhere h ≤ settledAt taken_elsewhere h'.
Proof.
  apply (fanout_rejection (mkListen 3000 None VUndefined) (createHosts eth0)
           taken_elsewhere (system_error "EADDRINUSE"));
    [reflexivity | simpl; lia | vm_compute; reflexivity].
Defined.

(** X15.  One probe of the fan-out that times out, or fails with an
    error other than "address not available" and "invalid argument",
    makes the whole verification reject, whatever the other hosts
    answered. *)
Theorem fanout_one_failure_rejects (options : ListenOptions) (hosts : list Host)
    (rd : Round) (h : Host) :
  host_given (l_host options) = false →
  l_port options ≠ 0 →
  h ∈ hosts →
  server rd h (l_port options) = Silent
  ∨ (∃ e, server rd h (l_port options) = ErrorEvent e
          ∧ (code_is e "EADDRNOTAVAIL" || code_is e "EINVAL") = false) →
  ∃ e', (verifyPort options hosts rd).2 = Rejected e'.
Proof.
  intros Hhost Hport Hin Hfail. rewrite verifyPort_fanout by assumption. cbn [snd].
  assert (∃ e, probe_host options rd h = Rejected e) as [e He].
  { unfold probe_host, checkPortAvailability.
    destruct Hfail as [-> | (e & -> & Hcode)].
    - eexists. reflexivity.
    - rewrite Hcode. eexists. reflexivity. }
  assert (is_Some (first_rejection
                     (map (λ h, (settledAt rd h, probe_host options rd h)) hosts)))
    as [[t e'] Hfirst].
  { apply (first_rejection_exists _ (settledAt rd h) e).
    apply list_elem_of_fmap. exists h. split; [|exact Hin].
    rewrite He. reflexivity. }
  unfold Promise_all. rewrite Hfirst. eauto.
Qed.

Lemma fanout_one_failure_rejects_witness :
  ∃ e', (verifyPort (mkListen 3000 None VUndefined) (createHosts eth0)
                    taken_elsewhere).2 = Rejected e'.
Proof.
  apply (fanout_one_failure_rejects (mkListen 3000 None VUndefined)
           (createHosts eth0) taken_elsewhere (Some "0.0.0.0"));
    [reflexivity | simpl; lia | | ].
  - apply (bool_decide_unpack (Some "0.0.0.0" ∈ createHosts eth0)).
    vm_compute. exact I.
  - right. exists (system_error "EADDRINUSE"). split; reflexivity.
Defined.

Lemma fanout_all_refused_witness :
  (verifyPort (mkListen 3000 None VUndefined) (createHosts eth0) (unbindable 3000 0)).2
  = Rejected (not_available 3000 (createHosts eth0))
  ∧ prop (not_available 3000 (createHosts eth0)) "code" = VUndefined
  ∧ instanceof_LockedPortError (not_available 3000 (createHosts eth0)) = false.
Proof.
  apply (fanout_all_refused (mkListen 3000 None VUndefined) (createHosts eth0)
           (unbindable 3000 0)); [reflexivity | simpl; lia |].
  intros h _. exists (system_error "EADDRNOTAVAIL"). split; reflexivity.
Defined.

(** ** What a call leaves behind *)

Section Outcome.

Variable env : nat → Round.
Variable excluded : list Z.
Variable P : World → Prop.
Variable Q : Z → Prop.
Hypothesis Q_unexcluded : ∀ p, Set_has excluded p = false → Q p.
Hypothesis P_await :
  ∀ options hosts w,
    Q (l_port options) → P w → P (await_verifyPort env options hosts w).1.

Lemma relock_outcome fuel options hosts port :
  ∀ w availablePort w',
    Q port → P w →
    final (relock fuel env options hosts port w availablePort) = Some w' →
    P w'.
Proof.
  induction fuel as [|fuel IH]; intros w availablePort w' Hq Hw; simpl;
    destruct (locked_has (manager w) availablePort);
    destruct (port =? 0) eqn:Hzero; simpl;
    try (intros [= <-]; exact Hw); try discriminate.
  assert (port = 0) as -> by lia.
  pose proof (P_await (listen_options options 0) hosts w Hq Hw) as Hnext.
  destruct (await_verifyPort env (listen_options options 0) hosts w)
    as [w1 [fresh|e|]]; simpl in *.
  - apply IH; [exact Hq|exact Hnext].
  - intros [= <-]. exact Hnext.
  - intros [= <-]. exact Hnext.
Qed.

Lemma try_candidate_outcome fuel options hosts port w :
  P w → leaves P (try_candidate fuel env options excluded hosts port w).
Proof.
  intros Hw. unfold try_candidate.
  destruct (Set_has excluded port) eqn:Hex; cbn [orb].
  { destruct (locked_has (manager w) port && negb (port =? 0)); exact Hw. }
  destruct (locked_has (manager w) port) eqn:Hl.
  { destruct (true && negb (port =? 0)); exact Hw. }
  pose proof (P_await (listen_options options port) hosts w
                (Q_unexcluded port Hex) Hw) as Hnext.
  destruct (await_verifyPort env (listen_options options port) hosts w)
    as [w1 [availablePort|e|]]; simpl in *; try exact Hnext.
  pose proof (relock_outcome fuel options hosts port w1 availablePort) as Hloop.
  pose proof (relock_returns_unlocked fuel env options hosts port w1 availablePort)
    as Hfree.
  destruct (relock fuel env options hosts port w1 availablePort)
    as [w2 p|w2 e|w2|]; simpl in *.
  - exists w2. split; [reflexivity|]. split; [|eapply Hfree; reflexivity].
    apply Hloop; [apply Q_unexcluded, Hex|exact Hnext|reflexivity].
  - apply Hloop; [apply Q_unexcluded, Hex|exact Hnext|reflexivity].
  - apply Hloop; [apply Q_unexcluded, Hex|exact Hnext|reflexivity].
  - exact I.
Qed.

Lemma scan_outcome fuel options hosts ports :
  ∀ w, P w → leaves P (scan fuel env options excluded hosts ports w).
Proof.
  induction ports as [|port rest IH]; intros w Hw; [exact Hw|].
  rewrite scan_cons.
  pose proof (try_candidate_outcome fuel options hosts port w Hw) as Hone.
  destruct (try_candidate fuel env options excluded hosts port w)
    as [w1 [p|]|w1 e|w1|]; simpl in *.
  - exact Hone.
  - apply IH, Hone.
  - destruct (code_is e "EADDRINUSE"); [exact Hone|].
    destruct (negb (code_is e "EACCES") && negb (instanceof_LockedPortError e));
      [exact Hone|apply IH, Hone].
  - exact Hone.
  - exact I.
Qed.

Lemma getOpenPort_outcome fuel options interfaces w :
  excluded = new_Set (default [] (exclude options)) →
  P (arm (record Entered w)) →
  match getOpenPort fuel env options interfaces w with
  | Returns w' p =>
      ∃ w'', w' = reserve p w'' ∧ P w'' ∧ locked_has (manager w'') p = false
  | Throws w' _ | Hangs w' => P w'
  | OutOfFuel => True
  end.
Proof.
  intros Hexcluded Hw. unfold getOpenPort. rewrite <- Hexcluded.
  match goal with
  | |- context [scan ?f env ?o excluded ?h ?ps ?w0] =>
      pose proof (scan_outcome f o h ps w0 Hw) as Hscan;
      destruct (scan f env o excluded h ps w0) as [w1 [p|]|w1 err|w1|]
  end; simpl in *; try exact Hscan.
  match goal with |- context [existsb ?f ?l] => destruct (existsb f l) end;
    exact Hscan.
Qed.

End Outcome.

Lemma perform_journal (a : Act) (w : World) :
  reservations (journal (perform w a)) = reservations (journal w)
  ∧ probes (journal (perform w a)) = probes (journal w)
  ∧ tick (perform w a) = tick w.
Proof.
  destruct a as [now|p ts|]; simpl.
  - unfold timerFires. destruct (cleanupTimer (manager w)); auto.
  - auto.
  - auto.
Qed.

Lemma foldl_perform_journal (acts : list Act) :
  ∀ w, reservations (journal (foldl perform w acts)) = reservations (journal w)
       ∧ probes (journal (foldl perform w acts)) = probes (journal w)
       ∧ tick (foldl perform w acts) = tick w.
Proof.
  induction acts as [|a acts IH]; intros w; simpl; [auto|].
  destruct (IH (perform w a)) as (-> & -> & ->). apply perform_journal.
Qed.

Lemma probed_only (ps : list ListenOptions) :
  reservations (rev (map (λ o, Probed o (timeoutMs o)) ps)) = []
  ∧ probes (rev (map (λ o, Probed o (timeoutMs o)) ps)) = rev ps.
Proof.
  unfold reservations, probes.
  induction ps as [|o ps [IHr IHp]]; [auto|].
  cbn [map rev]. rewrite !omap_app, IHr, IHp. auto.
Qed.

Lemma probed_journal (ps : list ListenOptions) (j : list Event) :
  reservations (rev (map (λ o, Probed o (timeoutMs o)) ps) ++ j) = reservations j
  ∧ probes (rev (map (λ o, Probed o (timeoutMs o)) ps) ++ j) = rev ps ++ probes j.
Proof.
  destruct (probed_only ps) as [Hr Hp].
  unfold reservations, probes in *. rewrite !omap_app, Hr, Hp. auto.
Qed.

Lemma await_journal (env : nat → Round) (options : ListenOptions)
    (hosts : list Host) (w : World) :
  reservations (journal (await_verifyPort env options hosts w).1)
  = reservations (journal w)
  ∧ probes (journal (await_verifyPort env options hosts w).1)
    = rev (verifyPort options hosts (env (tick w))).1 ++ probes (journal w)
  ∧ tick (await_verifyPort env options hosts w).1 = S (tick w).
Proof.
  unfold await_verifyPort.
  destruct (verifyPort options hosts (env (tick w))) as [ps outcome]. cbn [fst journal tick].
  match goal with
  | |- context [foldl perform ?w0 ?acts] =>
      destruct (foldl_perform_journal acts w0) as (-> & -> & ->)
  end.
  cbn [journal tick]. destruct (probed_journal ps (journal w)) as [-> ->]. auto.
Qed.

Lemma await_quiet (env : nat → Round) (options : ListenOptions)
    (hosts : list Host) (w : World) :
  during (env (tick w)) = [] →
  manager (await_verifyPort env options hosts w).1 = manager w.
Proof.
  intros Hquiet. unfold await_verifyPort.
  destruct (verifyPort options hosts (env (tick w))) as [ps outcome].
  rewrite Hquiet. reflexivity.
Qed.

Lemma verifyPort_probes_port (options : ListenOptions) (hosts : list Host)
    (rd : Round) (o : ListenOptions) :
  o ∈ (verifyPort options hosts rd).1 →
  l_port o = l_port options ∧ l_timeout o = l_timeout options.
Proof.
  unfold verifyPort.
  destruct (host_given (l_host options) || (l_port options =? 0)); cbn [fst].
  - intros Ho. apply list_elem_of_singleton in Ho as ->. auto.
  - intros Ho. apply list_elem_of_fmap in Ho as (h & -> & _). auto.
Qed.

Lemma reserve_lookup (p : Z) (w : World) :
  locked (manager (reserve p w)) !! p = Some (clock (reserve p w)).
Proof.
  unfold reserve. cbn [record manager clock]. rewrite lock_lookup.
  destruct (decide (p = p)); [reflexivity|congruence].
Qed.

(** X16.  A call that resolves to [p] has reserved [p], and nothing
    else: [p] was not in the lock table the moment before, it is there
    afterwards with the clock of that moment as its timestamp, and the
    call made exactly this one reservation. *)
Theorem getOpenPort_success (fuel : nat) (env : nat → Round) (options : Options)
    (interfaces : list (option (list InterfaceInfo))) (w w' : World) (p : Z) :
  getOpenPort fuel env options interfaces w = Returns w' p →
  (∃ w'', w' = reserve p w'' ∧ locked_has (manager w'') p = false)
  ∧ locked (manager w') !! p = Some (clock w')
  ∧ reservations (journal w') = p :: reservations (journal w).
Proof.
  intros Hcall.
  pose proof (getOpenPort_outcome env (new_Set (default [] (exclude options)))
                (λ w1, reservations (journal w1) = reservations (journal w))
                (λ _, True) (λ _ _, I)) as Hout.
  specialize (Hout
    (λ o hosts w1 _ Hw1, eq_trans (proj1 (await_journal env o hosts w1)) Hw1)
    fuel options interfaces w eq_refl).
  rewrite Hcall in Hout.
  destruct Hout as (w'' & -> & Hres & Hfree).
  { rewrite arm_journal. reflexivity. }
  split; [eauto|]. split; [apply reserve_lookup|].
  unfold reserve. cbn [record journal reservations omap]. simpl. f_equal. exact Hres.
Qed.


Lemma getOpenPort_success_witness :
  ∃ w', getOpenPort 0 (calm 40000) no_options eth0 initial = Returns w' 40000
        ∧ locked (manager w') !! 40000 = Some (clock w')
        ∧ reservations (journal w') = 40000 :: reservations (journal initial).
Proof.
  eexists. split; [vm_compute; reflexivity|].
  refine (proj2 (getOpenPort_success 0 (calm 40000) no_options eth0 initial _ 40000 _)).
  vm_compute. reflexivity.
Defined.

(** X17.  A call that rejects, or that waits on a probe that never
    settles, has reserved nothing. *)
Theorem getOpenPort_failure_reserves_nothing (fuel : nat) (env : nat → Round)
    (options : Options) (interfaces : list (option (list InterfaceInfo)))
    (w w' : World) :
  (∃ e, getOpenPort fuel env options interfaces w = Throws w' e)
  ∨ getOpenPort fuel env options interfaces w = Hangs w' →
  reservations (journal w') = reservations (journal w).
Proof.
  intros Hcall.
  pose proof (getOpenPort_outcome env (new_Set (default [] (exclude options)))
                (λ w1, reservations (journal w1) = reservations (journal w))
                (λ _, True) (λ _ _, I)) as Hout.
  specialize (Hout
    (λ o hosts w1 _ Hw1, eq_trans (proj1 (await_journal env o hosts w1)) Hw1)
    fuel options interfaces w eq_refl).
  destruct Hcall as [[e Hcall]|Hcall]; rewrite Hcall in Hout;
    apply Hout; rewrite arm_journal; reflexivity.
Qed.

Lemma getOpenPort_failure_reserves_nothing_witness :
  ∃ w', getOpenPort 0 in_use_3000
          (mkOptions (PortMany [3000; 3001]) None VUndefined None) eth0 initial
        = Throws w' (system_error "EADDRINUSE")
        ∧ reservations (journal w') = reservations (journal initial).
Proof.
  eexists. split; [vm_compute; reflexivity|].
  apply (getOpenPort_failure_reserves_nothing 0 in_use_3000
           (mkOptions (PortMany [3000; 3001]) None VUndefined None) eth0 initial).
  left. exists (system_error "EADDRINUSE"). vm_compute. reflexivity.
Defined.

(** X18.  When nothing else touches the port manager while a call is
    suspended, the call leaves the timer armed and changes the lock
    table in one way only: a call that resolves to [p] adds [p] with the
    current clock; a call that fails leaves the table as it found it. *)
Theorem getOpenPort_quiet (fuel : nat) (env : nat → Round) (options : Options)
    (interfaces : list (option (list InterfaceInfo))) (w : World) :
  (∀ i, during (env i) = []) →
  match getOpenPort fuel env options interfaces w with
  | Returns w' p =>
      locked (manager w') = <[ p := clock w' ]> (locked (manager w))
      ∧ is_Some (cleanupTimer (manager w'))
  | Throws w' _ | Hangs w' =>
      locked (manager w') = locked (manager w)
      ∧ is_Some (cleanupTimer (manager w'))
  | OutOfFuel => True
  end.
Proof.
  intros Hquiet.
  pose proof (getOpenPort_outcome env (new_Set (default [] (exclude options)))
                (λ w1, manager w1 = manager (arm (record Entered w)))
                (λ _, True) (λ _ _, I)) as Hout.
  specialize (Hout
    (λ o hosts w1 _ Hw1, eq_trans (await_quiet env o hosts w1 (Hquiet _)) Hw1)
    fuel options interfaces w eq_refl eq_refl).
  destruct (getOpenPort fuel env options interfaces w) as [w' p|w' e|w'|];
    [|rewrite Hout, arm_locked; split; [reflexivity|apply arm_armed]..|exact I].
  destruct Hout as (w'' & -> & Hm & _).
  unfold reserve, lock. cbn [record manager set_manager locked set_locked
                             cleanupTimer clock].
  rewrite Hm, arm_locked. split; [reflexivity|apply arm_armed].
Qed.

Lemma getOpenPort_quiet_witness :
  match getOpenPort 0 (calm 40000) no_options eth0 initial with
  | Returns w' p =>
      locked (manager w') = <[ p := clock w' ]> (locked (manager initial))
      ∧ is_Some (cleanupTimer (manager w'))
  | Throws w' _ | Hangs w' =>
      locked (manager w') = locked (manager initial)
      ∧ is_Some (cleanupTimer (manager w'))
  | OutOfFuel => True
  end.
Proof.
  apply (getOpenPort_quiet 0 (calm 40000) no_options eth0 initial).
  intros i. reflexivity.
Defined.

(** X19.  A call never probes an excluded port: every probe it adds to
    the journal asks for a port outside the exclusion set. *)
Theorem excluded_never_probed (fuel : nat) (env : nat → Round) (options : Options)
    (interfaces : list (option (list InterfaceInfo))) (w w' : World) :
  Forall (λ o, l_port o ∉ default [] (exclude options)) (probes (journal w)) →
  final (getOpenPort fuel env options interfaces w) = Some w' →
  Forall (λ o, l_port o ∉ default [] (exclude options)) (probes (journal w')).
Proof.
  intros Hbefore Hcall.
  set (excluded := new_Set (default [] (exclude options))).
  assert (∀ p, Set_has excluded p = false → p ∉ default [] (exclude options))
    as Hout_of.
  { intros p Hp Hin. apply bool_decide_eq_false in Hp. apply Hp.
    unfold excluded, new_Set. apply foldl_Set_add_elem. right. exact Hin. }
  pose proof (getOpenPort_outcome env excluded
                (λ w1, Forall (λ o, l_port o ∉ default [] (exclude options))
                              (probes (journal w1)))
                (λ p, p ∉ default [] (exclude options)) Hout_of) as Hout.
  assert (∀ (o : ListenOptions) (hosts : list Host) (w1 : World),
            l_port o ∉ default [] (exclude options) →
            Forall (λ o, l_port o ∉ default [] (exclude options))
                   (probes (journal w1)) →
            Forall (λ o, l_port o ∉ default [] (exclude options))
                   (probes (journal (await_verifyPort env o hosts w1).1)))
    as Hawait.
  { intros o hosts w1 Ho Hw1.
    destruct (await_journal env o hosts w1) as (_ & -> & _).
    apply Forall_app. split; [|exact Hw1].
    apply Forall_forall. intros o' Ho'.
    apply list_elem_of_In, in_rev, list_elem_of_In in Ho'.
    apply verifyPort_probes_port in Ho' as [-> _]. exact Ho. }
  specialize (Hout Hawait fuel options interfaces w eq_refl).
  cbv beta in Hout. rewrite arm_journal in Hout. specialize (Hout Hbefore).
  destruct (getOpenPort fuel env options interfaces w) as [w1 p|w1 e|w1|];
    simpl in Hcall; try discriminate Hcall; injection Hcall as <-;
    try exact Hout.
  destruct Hout as (w'' & -> & Hprobes & _). exact Hprobes.
Qed.

Lemma excluded_never_probed_witness :
  ∃ w', final (getOpenPort 0 (calm 40000)
                 (mkOptions (PortMany [8080; 3000]) (Some [8080; 8081]) VUndefined None)
                 eth0 initial) = Some w'
        ∧ Forall (λ o, l_port o ∉ [8080; 8081]) (probes (journal w')).
Proof.
  eexists. split; [vm_compute; reflexivity|].
  apply (excluded_never_probed 0 (calm 40000)
           (mkOptions (PortMany [8080; 3000]) (Some [8080; 8081]) VUndefined None)
           eth0 initial).
  - constructor.
  - vm_compute. reflexivity.
Defined.

(** ** The first preference *)

Lemma await_outcome (env : nat → Round) (options : ListenOptions)
    (hosts : list Host) (w : World) :
  (await_verifyPort env options hosts w).2
  = (verifyPort options hosts (env (tick w))).2
  ∧ clock (await_verifyPort env options hosts w).1 = resumedAt (env (tick w)).
Proof.
  unfold await_verifyPort.
  destruct (verifyPort options hosts (env (tick w))) as [ps outcome]. auto.
Qed.

Lemma first_candidate (options : Options) (p : Z) (rest : list Z) :
  port options = PortOne p ∨ port options = PortMany (p :: rest) →
  ∃ others,
    createPorts
      match port options with
      | PortMany ports => Some (new_Set ports)
      | PortOne port => Some [port]
      | PortAbsent => None
      end = p :: others.
Proof.
  intros [-> | ->].
  - exists []. reflexivity.
  - exists (new_Set (filter (λ y, y ≠ p) rest)).
    unfold createPorts. rewrite new_Set_NoDup_id
      by (apply foldl_Set_add_NoDup; constructor).
    apply new_Set_cons.
Qed.

Lemma not_excluded (options : Options) (p : Z) :
  p ∉ default [] (exclude options) →
  Set_has (new_Set (default [] (exclude options))) p = false.
Proof.
  intros Hout. apply bool_decide_eq_false. intros Hin. apply Hout.
  unfold new_Set in Hin. apply foldl_Set_add_elem in Hin as [Hin|Hin]; [|exact Hin].
  inversion Hin.
Qed.

Lemma createHosts_nonempty (interfaces : list (option (list InterfaceInfo))) :
  createHosts interfaces ≠ [].
Proof.
  unfold createHosts.
  pose proof (hosts_of_interfaces interfaces (new_Set [None; Some "0.0.0.0"])) as H.
  unfold Host in *. cbv zeta in H. destruct H as (_ & _ & rest & ->).
  discriminate.
Qed.

(** The attempt on a candidate that is neither excluded nor locked
    starts with a verification. *)
Lemma try_candidate_probes (fuel : nat) (env : nat → Round) (options : Options)
    (excluded : list Z) (hosts : list Host) (p : Z) (w : World) :
  Set_has excluded p = false →
  locked_has (manager w) p = false →
  try_candidate fuel env options excluded hosts p w
  = match await_verifyPort env (listen_options options p) hosts w with
    | (w', Resolved availablePort) =>
        match relock fuel env options hosts p w' availablePort with
        | Returns w'' availablePort' =>
            Returns (reserve availablePort' w'') (Some availablePort')
        | Throws w'' e => Throws w'' e
        | Hangs w'' => Hangs w''
        | OutOfFuel => OutOfFuel
        end
    | (w', Rejected e) => Throws w' e
    | (w', Pending) => Hangs w'
    end.
Proof. intros Hex Hl. unfold try_candidate. rewrite Hex, Hl. reflexivity. Qed.

(** X20.  When the first preference [p] is a non-zero port that is
    neither excluded nor locked, every host accepts the bind and nothing
    else touches the port manager meanwhile, the call resolves to [p]
    after a single round of probes, and the lock table gains [p] with
    the clock at which the call resumed. *)
Theorem first_preference_available (fuel : nat) (env : nat → Round)
    (options : Options) (interfaces : list (option (list InterfaceInfo)))
    (w : World) (p : Z) (rest : list Z) :
  port options = PortOne p ∨ port options = PortMany (p :: rest) →
  host_given (host options) = false →
  p ≠ 0 →
  p ∉ default [] (exclude options) →
  locked_has (manager w) p = false →
  (∀ h, h ∈ createHosts interfaces →
        server (env (tick w)) h p = Listening (AddrInfo p)) →
  during (env (tick w)) = [] →
  ∃ w', getOpenPort fuel env options interfaces w = Returns w' p
        ∧ locked (manager w') = <[ p := resumedAt (env (tick w)) ]> (locked (manager w))
        ∧ tick w' = S (tick w).
Proof.
  intros Hport Hhost Hp Hex Hl Haccept Hquiet.
  destruct (first_candidate options p rest Hport) as [others Hcands].
  unfold getOpenPort. rewrite Hcands, scan_cons.
  rewrite try_candidate_probes
    by (rewrite ?arm_locked_has; auto using not_excluded).
  set (w1 := arm (record Entered w)).
  assert (tick w1 = tick w) as Htick by (unfold w1; rewrite arm_tick; reflexivity).
  pose proof (await_outcome env (listen_options options p) (createHosts interfaces) w1)
    as [Hout Hclock].
  pose proof (await_journal env (listen_options options p) (createHosts interfaces) w1)
    as (_ & _ & Hticks).
  pose proof (await_quiet env (listen_options options p) (createHosts interfaces) w1)
    as Hm.
  rewrite Htick in Hout, Hclock, Hticks, Hm. specialize (Hm Hquiet).
  rewrite (verifyPort_all_accept (listen_options options p) (createHosts interfaces)
             (env (tick w)) Hhost Hp (createHosts_nonempty interfaces) Haccept)
    in Hout.
  destruct (await_verifyPort env (listen_options options p) (createHosts interfaces) w1)
    as [w2 outcome]. cbn [fst snd] in *. subst outcome. cbn [listen_options l_port].
  assert (locked_has (manager w2) p = false) as Hl2.
  { unfold locked_has. rewrite Hm. unfold w1. rewrite arm_locked. exact Hl. }
  rewrite relock_unlocked by exact Hl2.
  exists (reserve p w2). split; [reflexivity|]. split; [|exact Hticks].
  unfold reserve, lock. cbn [record manager set_manager locked set_locked].
  rewrite Hm, Hclock. unfold w1. rewrite arm_locked. reflexivity.
Qed.

Lemma first_preference_available_witness :
  ∃ w', getOpenPort 0 (calm 40000)
          (mkOptions (PortMany [3000; 4000]) (Some [8080]) VUndefined None)
          eth0 initial
        = Returns w' 3000
        ∧ locked (manager w') = <[ 3000 := 1000 ]> (locked (manager initial))
        ∧ tick w' = S (tick initial).
Proof.
  apply (first_preference_available 0 (calm 40000)
           (mkOptions (PortMany [3000; 4000]) (Some [8080]) VUndefined None)
           eth0 initial 3000 [4000]).
  - right. reflexivity.
  - reflexivity.
  - lia.
  - apply (bool_decide_unpack (3000 ∉ [8080])). vm_compute. exact I.
  - reflexivity.
  - intros h _. reflexivity.
  - reflexivity.
Defined.

(** X21.  When the only requested port [p] is free on every host but is
    in the lock table by the time the call resumes, locked by other code
    while the probes were in flight, the call rejects with a
    [LockedPortError] and reserves nothing. *)
Theorem locked_while_probing (fuel : nat) (env : nat → Round) (options : Options)
    (interfaces : list (option (list InterfaceInfo))) (w : World) (p : Z) :
  port options = PortOne p →
  host_given (host options) = false →
  p ≠ 0 →
  p ∉ default [] (exclude options) →
  locked_has (manager w) p = false →
  (∀ h, h ∈ createHosts interfaces →
        server (env (tick w)) h p = Listening (AddrInfo p)) →
  locked_has
    (manager (await_verifyPort env (listen_options options p)
                (createHosts interfaces) (arm (record Entered w))).1) p = true →
  ∃ w', getOpenPort fuel env options interfaces w
        = Throws w' (LockedPortError (VInt p))
        ∧ reservations (journal w') = reservations (journal w).
Proof.
  intros Hport Hhost Hp Hex Hl Haccept Hraced.
  unfold getOpenPort. rewrite Hport. cbn [createPorts]. change (new_Set [p]) with [p].
  rewrite scan_cons.
  rewrite try_candidate_probes
    by (rewrite ?arm_locked_has; auto using not_excluded).
  set (w1 := arm (record Entered w)) in *.
  assert (tick w1 = tick w) as Htick by (unfold w1; rewrite arm_tick; reflexivity).
  pose proof (await_outcome env (listen_options options p) (createHosts interfaces) w1)
    as [Hout _].
  pose proof (await_journal env (listen_options options p) (createHosts interfaces) w1)
    as (Hres & _ & _).
  rewrite Htick in Hout.
  rewrite (verifyPort_all_accept (listen_options options p) (createHosts interfaces)
             (env (tick w)) Hhost Hp (createHosts_nonempty interfaces) Haccept)
    in Hout.
  destruct (await_verifyPort env (listen_options options p) (createHosts interfaces) w1)
    as [w2 outcome]. cbn [fst snd] in *. subst outcome. cbn [listen_options l_port].
  assert (relock fuel env options (createHosts interfaces) p w2 p
          = Throws w2 (LockedPortError (VInt p))) as ->.
  { assert (negb (p =? 0) = true) as Hnz by (apply negb_true_iff; lia).
    destruct fuel; simpl; rewrite Hraced, Hnz; reflexivity. }
  rewrite LockedPortError_not_in_use, LockedPortError_instanceof, andb_false_r.
  cbn [scan existsb find]. rewrite Hraced. cbn [orb from_option].
  exists w2. split; [reflexivity|].
  rewrite Hres. unfold w1. rewrite arm_journal. reflexivity.
Qed.

Lemma locked_while_probing_witness :
  ∃ w', getOpenPort 0 raced_3000 (mkOptions (PortOne 3000) None VUndefined None)
                    eth0 initial
        = Throws w' (LockedPortError (VInt 3000))
        ∧ reservations (journal w') = reservations (journal initial).
Proof.
  apply (locked_while_probing 0 raced_3000
           (mkOptions (PortOne 3000) None VUndefined None) eth0 initial 3000).
  - reflexivity.
  - reflexivity.
  - lia.
  - apply not_elem_of_nil.
  - reflexivity.
  - intros h _. reflexivity.
  - vm_compute. reflexivity.
Defined.

(** X22.  When the first preference is a non-zero port that every host
    refuses with "address not available" or "invalid argument", the call
    rejects with the fan-out's "not available on any interface" error
    after that single round of probes: the error has no [code], so it is
    not swallowed, and the remaining preferences are not tried. *)
Theorem unavailable_first_preference_aborts (fuel : nat) (env : nat → Round)
    (options : Options) (interfaces : list (option (list InterfaceInfo)))
    (w : World) (p : Z) (rest : list Z) :
  port options = PortOne p ∨ port options = PortMany (p :: rest) →
  host_given (host options) = false →
  p ≠ 0 →
  p ∉ default [] (exclude options) →
  locked_has (manager w) p = false →
  (∀ h, h ∈ createHosts interfaces →
        ∃ e, server (env (tick w)) h p = ErrorEvent e
             ∧ (code_is e "EADDRNOTAVAIL" || code_is e "EINVAL") = true) →
  ∃ w', getOpenPort fuel env options interfaces w
        = Throws w' (not_available p (createHosts interfaces))
        ∧ tick w' = S (tick w)
        ∧ Forall (λ o, l_port o = p)
                 (take (length (createHosts interfaces)) (probes (journal w')))
        ∧ drop (length (createHosts interfaces)) (probes (journal w'))
          = probes (journal w).
Proof.
  intros Hport Hhost Hp Hex Hl Hrefused.
  destruct (first_candidate options p rest Hport) as [others Hcands].
  unfold getOpenPort. rewrite Hcands, scan_cons.
  rewrite try_candidate_probes
    by (rewrite ?arm_locked_has; auto using not_excluded).
  set (w1 := arm (record Entered w)).
  assert (tick w1 = tick w) as Htick by (unfold w1; rewrite arm_tick; reflexivity).
  pose proof (await_outcome env (listen_options options p) (createHosts interfaces) w1)
    as [Hout _].
  pose proof (await_journal env (listen_options options p) (createHosts interfaces) w1)
    as (_ & Hprobes & Hticks).
  rewrite Htick in Hout, Hprobes, Hticks.
  rewrite (verifyPort_all_refused (listen_options options p) (createHosts interfaces)
             (env (tick w)) Hhost Hp Hrefused) in Hout.
  rewrite (verifyPort_fanout (listen_options options p) (createHosts interfaces)
             (env (tick w)) Hhost Hp) in Hprobes. cbn [fst] in Hprobes.
  destruct (await_verifyPort env (listen_options options p) (createHosts interfaces) w1)
    as [w2 outcome]. cbn [fst snd] in *. subst outcome. cbn [listen_options l_port].
  change (code_is (not_available p (createHosts interfaces)) "EADDRINUSE") with false.
  change (code_is (not_available p (createHosts interfaces)) "EACCES") with false.
  change (instanceof_LockedPortError (not_available p (createHosts interfaces)))
    with false.
  cbn [negb andb].
  exists w2. split; [reflexivity|]. split; [exact Hticks|].
  assert (probes (journal w1) = probes (journal w)) as Hw1
    by (unfold w1; rewrite arm_journal; reflexivity).
  rewrite Hprobes, Hw1.
  assert (length (rev (map (λ h, with_host h (listen_options options p))
                           (createHosts interfaces)))
          = length (createHosts interfaces)) as Hlen
    by (rewrite length_rev, length_map; reflexivity).
  rewrite <- Hlen. rewrite take_app_length, drop_app_length.
  split; [|reflexivity].
  apply Forall_forall. intros o Ho.
  apply list_elem_of_In, in_rev, list_elem_of_In, list_elem_of_fmap in Ho
    as (h & -> & _).
  reflexivity.
Qed.

Lemma unavailable_first_preference_aborts_witness :
  ∃ w', getOpenPort 0 (unbindable 3000)
          (mkOptions (PortMany [3000; 4000]) None VUndefined None) eth0 initial
        = Throws w' (not_available 3000 (createHosts eth0))
        ∧ tick w' = S (tick initial)
        ∧ Forall (λ o, l_port o = 3000)
                 (take (length (createHosts eth0)) (probes (journal w')))
        ∧ drop (length (createHosts eth0)) (probes (journal w'))
          = probes (journal initial).
Proof.
  apply (unavailable_first_preference_aborts 0 (unbindable 3000)
           (mkOptions (PortMany [3000; 4000]) None VUndefined None) eth0 initial
           3000 [4000]).
  - right. reflexivity.
  - reflexivity.
  - lia.
  - apply not_elem_of_nil.
  - reflexivity.
  - intros h _. exists (system_error "EADDRNOTAVAIL"). split; reflexivity.
Defined.

(** ** Calls without the ephemeral candidate *)

Lemma relock_nonzero (fuel : nat) (env : nat → Round) (options : Options)
    (hosts : list Host) (port : Z) (w : World) (availablePort : Z) :
  port ≠ 0 →
  relock fuel env options hosts port w availablePort
  = relock 0 env options hosts port w availablePort
  ∧ relock 0 env options hosts port w availablePort ≠ OutOfFuel.
Proof.
  intros Hp. assert (negb (port =? 0) = true) as Hnz by (apply negb_true_iff; lia).
  destruct fuel; simpl; destruct (locked_has (manager w) availablePort);
    rewrite ?Hnz; split; (reflexivity || discriminate).
Qed.

Lemma try_candidate_nonzero (fuel : nat) (env : nat → Round) (options : Options)
    (excluded : list Z) (hosts : list Host) (port : Z) (w : World) :
  port ≠ 0 →
  try_candidate fuel env options excluded hosts port w
  = try_candidate 0 env options excluded hosts port w
  ∧ try_candidate 0 env options excluded hosts port w ≠ OutOfFuel.
Proof.
  intros Hp. unfold try_candidate.
  destruct (Set_has excluded port || locked_has (manager w) port).
  { destruct (locked_has (manager w) port && negb (port =? 0));
      split; (reflexivity || discriminate). }
  destruct (await_verifyPort env (listen_options options port) hosts w)
    as [w1 [availablePort|e|]]; try (split; (reflexivity || discriminate)).
  destruct (relock_nonzero fuel env options hosts port w1 availablePort Hp)
    as [-> Hends].
  split; [reflexivity|].
  destruct (relock 0 env options hosts port w1 availablePort);
    (discriminate || congruence).
Qed.

Lemma scan_nonzero (fuel : nat) (env : nat → Round) (options : Options)
    (excluded : list Z) (hosts : list Host) (ports : list Z) :
  0 ∉ ports →
  ∀ w, scan fuel env options excluded hosts ports w
       = scan 0 env options excluded hosts ports w
       ∧ scan 0 env options excluded hosts ports w ≠ OutOfFuel.
Proof.
  induction ports as [|port rest IH]; intros Hzero w.
  { split; [reflexivity|discriminate]. }
  apply not_elem_of_cons in Hzero as [Hport Hrest].
  rewrite !scan_cons.
  destruct (try_candidate_nonzero fuel env options excluded hosts port w
              ltac:(congruence)) as [-> Hends].
  destruct (try_candidate 0 env options excluded hosts port w)
    as [w1 [p|]|w1 e|w1|]; try (split; (reflexivity || discriminate)).
  - apply IH, Hrest.
  - destruct (code_is e "EADDRINUSE"); [split; (reflexivity || discriminate)|].
    destruct (negb (code_is e "EACCES") && negb (instanceof_LockedPortError e));
      [split; (reflexivity || discriminate)|].
    apply IH, Hrest.
  - congruence.
Qed.

(** X23.  The unbounded re-verification concerns the ephemeral candidate
    only: a call whose requested ports are all non-zero always ends, with
    the same outcome under every iteration budget, the empty one
    included. *)
Theorem nonzero_preferences_end (fuel : nat) (env : nat → Round) (options : Options)
    (interfaces : list (option (list InterfaceInfo))) (w : World) :
  (∃ p, port options = PortOne p ∧ p ≠ 0)
  ∨ (∃ ports, port options = PortMany ports ∧ 0 ∉ ports) →
  getOpenPort fuel env options interfaces w = getOpenPort 0 env options interfaces w
  ∧ getOpenPort fuel env options interfaces w ≠ OutOfFuel.
Proof.
  intros Hport.
  assert (0 ∉ createPorts
                match port options with
                | PortMany ports => Some (new_Set ports)
                | PortOne port => Some [port]
                | PortAbsent => None
                end) as Hzero.
  { destruct Hport as [(p & -> & Hp)|(ports & -> & Hports)]; cbn [createPorts].
    - change (new_Set [p]) with [p]. intros Hin.
      apply list_elem_of_singleton in Hin. congruence.
    - intros Hin. apply Hports. unfold new_Set in Hin.
      apply foldl_Set_add_elem in Hin as [Hin|Hin]; [inversion Hin|].
      apply foldl_Set_add_elem in Hin as [Hin|Hin]; [inversion Hin|exact Hin]. }
  unfold getOpenPort.
  match goal with
  | |- context [scan fuel env ?o ?x ?h ?ps ?w0] =>
      destruct (scan_nonzero fuel env o x h ps Hzero w0) as [-> Hends];
      destruct (scan 0 env o x h ps w0) as [w1 [p|]|w1 e|w1|]
  end; try (split; (reflexivity || discriminate)).
  - match goal with |- context [existsb ?f ?l] => destruct (existsb f l) end;
      split; (reflexivity || discriminate).
  - congruence.
Qed.

Lemma nonzero_preferences_end_witness :
  getOpenPort 7 (stubborn 40000) (mkOptions (PortOne 40000) None VUndefined None)
              eth0 (lock 40000 0 initial)
  = getOpenPort 0 (stubborn 40000) (mkOptions (PortOne 40000) None VUndefined None)
                eth0 (lock 40000 0 initial)
  ∧ getOpenPort 7 (stubborn 40000) (mkOptions (PortOne 40000) None VUndefined None)
                eth0 (lock 40000 0 initial) ≠ OutOfFuel.
Proof.
  apply (nonzero_preferences_end 7 (stubborn 40000)
           (mkOptions (PortOne 40000) None VUndefined None) eth0
           (lock 40000 0 initial)).
  left. exists 40000. split; [reflexivity|lia].
Defined.

(** X24.  With no [port] option the only candidate is the ephemeral 0.
    If 0 is excluded, or is in the lock table, the call probes nothing:
    it rejects with [LockedPortError] for port 0 when 0 is locked, and
    with "No available ports found" otherwise. *)
Theorem ephemeral_candidate_blocked (fuel : nat) (env : nat → Round)
    (options : Options) (interfaces : list (option (list InterfaceInfo)))
    (w : World) :
  port options = PortAbsent →
  0 ∈ default [] (exclude options) ∨ locked_has (manager w) 0 = true →
  ∃ w', getOpenPort fuel env options interfaces w
        = Throws w' (if locked_has (manager w) 0
                     then LockedPortError (VInt 0)
                     else new_Error "No available ports found")
        ∧ probes (journal w') = probes (journal w)
        ∧ tick w' = tick w.
Proof.
  intros Hport Hblocked. exists (arm (record Entered w)).
  split; [|rewrite arm_journal, arm_tick; auto].
  unfold getOpenPort. rewrite Hport. cbn [createPorts]. rewrite scan_cons.
  unfold try_candidate. rewrite arm_locked_has.
  assert (Set_has (new_Set (default [] (exclude options))) 0
          || locked_has (manager w) 0 = true) as ->.
  { destruct Hblocked as [Hin| ->]; [|apply orb_true_r].
    apply orb_true_iff. left. apply bool_decide_eq_true.
    unfold new_Set. apply foldl_Set_add_elem. right. exact Hin. }
  change (negb (0 =? 0)) with false. rewrite andb_false_r.
  cbn [scan existsb find]. rewrite arm_locked_has.
  destruct (locked_has (manager w) 0); reflexivity.
Qed.

Lemma ephemeral_candidate_blocked_witness :
  ∃ w', getOpenPort 0 (calm 40000) (mkOptions PortAbsent (Some [0]) VUndefined None)
                    eth0 initial
        = Throws w' (if locked_has (manager initial) 0
                     then LockedPortError (VInt 0)
                     else new_Error "No available ports found")
        ∧ probes (journal w') = probes (journal initial)
        ∧ tick w' = tick initial.
Proof.
  apply (ephemeral_candidate_blocked 0 (calm 40000)
           (mkOptions PortAbsent (Some [0]) VUndefined None) eth0 initial).
  - reflexivity.
  - left. left.
Defined.

(** ** The default call: one ephemeral probe *)

Lemma verifyPort_single (options : ListenOptions) (hosts : list Host) (rd : Round) :
  l_port options = 0 ∨ host_given (l_host options) = true →
  verifyPort options hosts rd
  = ([options],
     checkPortAvailability options (server rd (l_host options) (l_port options))).
Proof.
  intros Hsingle. unfold verifyPort.
  assert (host_given (l_host options) || (l_port options =? 0) = true) as ->.
  { destruct Hsingle as [-> | ->]; [apply orb_true_r|reflexivity]. }
  reflexivity.
Qed.

(** A call without [port] option, 0 being neither excluded nor locked,
    is one attempt on the candidate 0, which starts with one probe. *)
Lemma default_call (fuel : nat) (env : nat → Round) (options : Options)
    (interfaces : list (option (list InterfaceInfo))) (w : World) :
  port options = PortAbsent →
  0 ∉ default [] (exclude options) →
  locked_has (manager w) 0 = false →
  ∃ w2,
    await_verifyPort env (listen_options options 0) (createHosts interfaces)
                     (arm (record Entered w))
    = (w2, checkPortAvailability (listen_options options 0)
             (server (env (tick w)) (host options) 0))
    ∧ reservations (journal w2) = reservations (journal w)
    ∧ getOpenPort fuel env options interfaces w
      = match scan fuel env options (new_Set (default [] (exclude options)))
                (createHosts interfaces) [0] (arm (record Entered w)) with
        | Returns w' (Some availablePort) => Returns w' availablePort
        | Returns w' None =>
            if existsb (locked_has (manager w')) [0] then
              Throws w' (LockedPortError
                           (from_option VInt VUndefined
                              (find (locked_has (manager w')) [0])))
            else Throws w' (new_Error "No available ports found")
        | Throws w' e => Throws w' e
        | Hangs w' => Hangs w'
        | OutOfFuel => OutOfFuel
        end
    ∧ try_candidate fuel env options (new_Set (default [] (exclude options)))
                    (createHosts interfaces) 0 (arm (record Entered w))
      = match checkPortAvailability (listen_options options 0)
                (server (env (tick w)) (host options) 0) with
        | Resolved availablePort =>
            match relock fuel env options (createHosts interfaces) 0 w2 availablePort with
            | Returns w'' availablePort' =>
                Returns (reserve availablePort' w'') (Some availablePort')
            | Throws w'' e => Throws w'' e
            | Hangs w'' => Hangs w''
            | OutOfFuel => OutOfFuel
            end
        | Rejected e => Throws w2 e
        | Pending => Hangs w2
        end.
Proof.
  intros Hport Hex Hl.
  set (w1 := arm (record Entered w)).
  assert (tick w1 = tick w) as Htick by (unfold w1; rewrite arm_tick; reflexivity).
  pose proof (await_outcome env (listen_options options 0) (createHosts interfaces) w1)
    as [Hout _].
  pose proof (await_journal env (listen_options options 0) (createHosts interfaces) w1)
    as (Hres & _ & _).
  rewrite Htick in Hout.
  rewrite (verifyPort_single (listen_options options 0) (createHosts interfaces)
             (env (tick w))) in Hout by (left; reflexivity).
  cbn [snd listen_options l_host l_port] in Hout.
  exists (await_verifyPort env (listen_options options 0) (createHosts interfaces) w1).1.
  split; [|split; [|split]].
  - rewrite <- Hout. apply surjective_pairing.
  - rewrite Hres. unfold w1. rewrite arm_journal. reflexivity.
  - unfold getOpenPort. rewrite Hport. reflexivity.
  - rewrite try_candidate_probes
      by (unfold w1; rewrite ?arm_locked_has; auto using not_excluded).
    destruct (await_verifyPort env (listen_options options 0)
                (createHosts interfaces) w1) as [w2 outcome].
    cbn [fst snd] in *. subst outcome. reflexivity.
Qed.

(** X25.  When the listen callback of the ephemeral probe finds no
    address object ([null], or the name of a pipe), the probe's timer has
    been cancelled and its promise is never settled: the call neither
    resolves nor rejects, and reserves nothing. *)
Theorem default_call_never_settles (fuel : nat) (env : nat → Round)
    (options : Options) (interfaces : list (option (list InterfaceInfo)))
    (w : World) :
  port options = PortAbsent →
  0 ∉ default [] (exclude options) →
  locked_has (manager w) 0 = false →
  server (env (tick w)) (host options) 0 = Listening AddrNull
  ∨ (∃ path, server (env (tick w)) (host options) 0 = Listening (AddrPipe path)) →
  ∃ w', getOpenPort fuel env options interfaces w = Hangs w'
        ∧ reservations (journal w') = reservations (journal w).
Proof.
  intros Hport Hex Hl Haddr.
  destruct (default_call fuel env options interfaces w Hport Hex Hl)
    as (w2 & _ & Hres & -> & Htry).
  rewrite scan_cons, Htry.
  exists w2. split; [|exact Hres].
  destruct Haddr as [-> | [path ->]]; reflexivity.
Qed.

(** An IPC server: its address is the name of its pipe. *)
Example default_call_never_settles_pipe :
  ∃ w', getOpenPort 0
          (λ i, mkRound (λ _ _, Listening (AddrPipe "/tmp/app.sock")) (λ _, 0) [] 0)
          no_options eth0 initial
        = Hangs w'.
Proof. eexists. vm_compute. reflexivity. Qed.

Lemma default_call_never_settles_witness :
  ∃ w', getOpenPort 0
          (λ i, mkRound (λ _ _, Listening AddrNull) (λ _, 0) [] 0)
          no_options eth0 initial
        = Hangs w'
        ∧ reservations (journal w') = reservations (journal initial).
Proof.
  apply (default_call_never_settles 0
           (λ i, mkRound (λ _ _, Listening AddrNull) (λ _, 0) [] 0)
           no_options eth0 initial).
  - reflexivity.
  - apply not_elem_of_nil.
  - reflexivity.
  - left. reflexivity.
Defined.

(** X26.  When the ephemeral probe of the default call gets no answer,
    the call rejects with the probe's timeout error, whose message
    carries the configured timeout, or 1000 when the option is falsy;
    the error has no [code] and nothing is reserved. *)
Theorem default_call_times_out (fuel : nat) (env : nat → Round)
    (options : Options) (interfaces : list (option (list InterfaceInfo)))
    (w : World) :
  port options = PortAbsent →
  0 ∉ default [] (exclude options) →
  locked_has (manager w) 0 = false →
  server (env (tick w)) (host options) 0 = Silent →
  ∃ w', getOpenPort fuel env options interfaces w
        = Throws w' (new_Error ("Port check timed out after "
                                +:+ template (js_or (timeout options) (VInt 1000))
                                +:+ "ms"))
        ∧ reservations (journal w') = reservations (journal w).
Proof.
  intros Hport Hex Hl Hsilent.
  destruct (default_call fuel env options interfaces w Hport Hex Hl)
    as (w2 & _ & Hres & -> & Htry).
  rewrite scan_cons, Htry, Hsilent.
  exists w2. split; [|exact Hres]. reflexivity.
Qed.

Lemma default_call_times_out_witness :
  ∃ w', getOpenPort 0 unresponsive (mkOptions PortAbsent None (VInt 0) None)
                    eth0 initial
        = Throws w' (new_Error "Port check timed out after 1000ms")
        ∧ reservations (journal w') = reservations (journal initial).
Proof.
  apply (default_call_times_out 0 unresponsive
           (mkOptions PortAbsent None (VInt 0) None) eth0 initial).
  - reflexivity.
  - apply not_elem_of_nil.
  - reflexivity.
  - reflexivity.
Defined.

(** X27.  When the ephemeral probe of the default call fails with a
    system error: an "address in use" error, or one that is neither
    "permission denied" nor a [LockedPortError], reaches the caller as
    it is; a "permission denied" error is swallowed and, there being no
    other candidate and 0 not being locked, replaced by the generic
    "No available ports found". *)
Theorem default_call_probe_error (fuel : nat) (env : nat → Round)
    (options : Options) (interfaces : list (option (list InterfaceInfo)))
    (w : World) (e : JsError) :
  port options = PortAbsent →
  0 ∉ default [] (exclude options) →
  locked_has (manager w) 0 = false →
  server (env (tick w)) (host options) 0 = ErrorEvent e →
  (code_is e "EADDRINUSE" = true
   ∨ code_is e "EACCES" = false ∧ instanceof_LockedPortError e = false →
   ∃ w', getOpenPort fuel env options interfaces w = Throws w' e)
  ∧ (code_is e "EACCES" = true →
     during (env (tick w)) = [] →
     ∃ w', getOpenPort fuel env options interfaces w
           = Throws w' (new_Error "No available ports found")).
Proof.
  intros Hport Hex Hl Herror.
  destruct (default_call fuel env options interfaces w Hport Hex Hl)
    as (w2 & Hawait & _ & -> & Htry).
  rewrite scan_cons, Htry, Herror. cbn [checkPortAvailability].
  split.
  - intros [-> | [Hacces Hclass]]; [eauto|].
    destruct (code_is e "EADDRINUSE"); [eauto|].
    rewrite Hacces, Hclass. eauto.
  - intros Hacces Hquiet.
    rewrite (code_is_functional e "EACCES" "EADDRINUSE" Hacces) by discriminate.
    rewrite Hacces. cbn [negb andb scan existsb].
    assert (manager w2 = manager (arm (record Entered w))) as Hm.
    { pose proof (await_quiet env (listen_options options 0) (createHosts interfaces)
                    (arm (record Entered w))) as Hq.
      rewrite arm_tick in Hq. rewrite Hawait in Hq. apply Hq, Hquiet. }
    rewrite Hm, arm_locked_has, Hl. eauto.
Qed.

Lemma default_call_probe_error_witness :
  (∃ w', getOpenPort 0
           (λ i, mkRound (λ _ _, ErrorEvent (system_error "EADDRINUSE")) (λ _, 0) [] 0)
           no_options eth0 initial
         = Throws w' (system_error "EADDRINUSE"))
  ∧ (∃ w', getOpenPort 0
             (λ i, mkRound (λ _ _, ErrorEvent (system_error "EACCES")) (λ _, 0) [] 0)
             no_options eth0 initial
           = Throws w' (new_Error "No available ports found")).
Proof.
  split.
  - apply (proj1 (default_call_probe_error 0
                    (λ i, mkRound (λ _ _, ErrorEvent (system_error "EADDRINUSE"))
                                  (λ _, 0) [] 0)
                    no_options eth0 initial (system_error "EADDRINUSE")
                    eq_refl ltac:(apply not_elem_of_nil) eq_refl eq_refl)).
    left. reflexivity.
  - apply (proj2 (default_call_probe_error 0
                    (λ i, mkRound (λ _ _, ErrorEvent (system_error "EACCES"))
                                  (λ _, 0) [] 0)
                    no_options eth0 initial (system_error "EACCES")
                    eq_refl ltac:(apply not_elem_of_nil) eq_refl eq_refl));
      reflexivity.
Defined.

(** ** The message of a [LockedPortError] *)

Lemma string_length_app (s t : string) :
  String.length (s +:+ t) = (String.length s + String.length t)%nat.
Proof. induction s as [|a s IH]; simpl; [reflexivity|]. rewrite IH. reflexivity. Qed.

Lemma string_app_inv_tail (t s1 s2 : string) :
  s1 +:+ t = s2 +:+ t → s1 = s2.
Proof.
  revert s2. induction s1 as [|a s1 IH]; intros [|b s2] H; simpl in H.
  - reflexivity.
  - apply (f_equal String.length) in H.
    rewrite ?string_length_app in H. simpl in H. rewrite ?string_length_app in H. lia.
  - apply (f_equal String.length) in H.
    rewrite ?string_length_app in H. simpl in H. rewrite ?string_length_app in H. lia.
  - injection H as -> H. f_equal. apply IH, H.
Qed.

(** X28.  The message of a [LockedPortError] names its port without
    ambiguity: the errors for two ports have the same message only when
    the ports are the same, while their [name] and [code] never differ. *)
Theorem LockedPortError_message_names_port (p q : Z) :
  (prop (LockedPortError (VInt p)) "message" = prop (LockedPortError (VInt q)) "message"
   ↔ p = q)
  ∧ prop (LockedPortError (VInt p)) "name" = prop (LockedPortError (VInt q)) "name"
  ∧ prop (LockedPortError (VInt p)) "code" = prop (LockedPortError (VInt q)) "code".
Proof.
  split; [|split; reflexivity].
  split; [|intros ->; reflexivity].
  change (prop (LockedPortError (VInt p)) "message")
    with (VStr ("Port " +:+ pretty p +:+ " is locked")).
  change (prop (LockedPortError (VInt q)) "message")
    with (VStr ("Port " +:+ pretty q +:+ " is locked")).
  intros [= H]. apply String.app_inj in H.
  apply string_app_inv_tail in H. apply pretty_Z_inj in H. exact H.
Qed.

Example LockedPortError_message_8080 :
  prop (LockedPortError (VInt 8080)) "message" = VStr "Port 8080 is locked".
Proof. vm_compute. reflexivity. Qed.

(** ** The fan-out: the first success by completion *)






Example fanout_first_by_completion_3000 :
  (verifyPort (mkListen 3000 None VUndefined) (createHosts eth0) (calm 40000 0)).2
  = Resolved 3000
  ∧ first_success_by_completion (mkListen 3000 None VUndefined) (createHosts eth0)
      (calm 40000 0)
    = Some 3000.
Proof. split; reflexivity. Qed.
